(** * AutoLicenser: third-party license collection

    A shallow embedding of [AutoLicenser.py] and the properties its
    specification states about it.

    Text.  A Python [str] is embedded as a [string] whose characters are read
    as the code points 0..255, so that [str.strip], [str.lower], the regular
    expression class [\s] and the comparison of strings are the tables of
    Python restricted to that range.  [str.upper] sends two code points of the
    range (181 and 255) outside of it; they are left unchanged here, which
    cannot be observed by the only use of [upper], a comparison with the
    ASCII text [UNKNOWN].

    Environment.  The metadata catalog and the file system are external: a
    distribution is a record of the fields the program reads, the file system
    is a record of the queries the program makes ([World]), and the output
    directory is a finite map from file names to the contents copied there. *)

From Stdlib Require Import Ascii String NArith Lia.
From stdpp Require Import base list sorting strings gmap pretty.

Local Open Scope N_scope.
Set Warnings "-clear-no-such-hyp".

(** ** Python's [str] operations *)

Module PyStr.

Definition ord (c : ascii) : N := N_of_ascii c.

Definition between (lo hi n : N) : bool := (lo <=? n) && (n <=? hi).

(** [str.isspace] on one character; also the class [\s] of [re]. *)
Definition isspace (c : ascii) : bool :=
  let n := ord c in
  between 9 13 n || between 28 32 n || (n =? 133) || (n =? 160).

(** [str.lower] and [str.upper], character by character. *)
Definition lower_char (c : ascii) : ascii :=
  let n := ord c in
  if between 65 90 n || between 192 214 n || between 216 222 n
  then ascii_of_N (n + 32) else c.

Definition upper_char (c : ascii) : string :=
  let n := ord c in
  if between 97 122 n || between 224 246 n || between 248 254 n
  then String (ascii_of_N (n - 32)) ""
  else if n =? 223 then "SS"
  else String c "".

Fixpoint lower (s : string) : string :=
  match s with
  | "" => ""
  | String c r => String (lower_char c) (lower r)
  end.

Fixpoint upper (s : string) : string :=
  match s with
  | "" => ""
  | String c r => upper_char c +:+ upper r
  end.

Definition is_empty (s : string) : bool :=
  match s with "" => true | _ => false end.

(** [x or y] on strings: the empty string is falsy. *)
Definition or_else (x y : string) : string :=
  if is_empty x then y else x.

Fixpoint lstrip (s : string) : string :=
  match s with
  | "" => ""
  | String c r => if isspace c then lstrip r else s
  end.

Fixpoint rstrip (s : string) : string :=
  match s with
  | "" => ""
  | String c r =>
      let r' := rstrip r in
      if isspace c && is_empty r' then "" else String c r'
  end.

Definition strip (s : string) : string := rstrip (lstrip s).

Definition startswith (p s : string) : bool := String.prefix p s.

Definition endswith (p s : string) : bool :=
  let n := String.length s in
  let k := String.length p in
  (k <=? n)%nat && String.eqb (String.substring (n - k) k s) p.

(** [sub in s]. *)
Fixpoint contains (sub s : string) : bool :=
  String.prefix sub s ||
  match s with
  | "" => false
  | String _ r => contains sub r
  end.

(** [s[:-k]] *)
Definition drop_last (k : nat) (s : string) : string :=
  String.substring 0 (String.length s - k) s.

(** [s.replace(old, new)] for a non-empty [old]: the occurrences are found
    from the left and do not overlap.  [skip] counts the characters of a
    matched occurrence that are still to be passed over. *)
Fixpoint replace_go (old new : string) (skip : nat) (s : string) : string :=
  match s with
  | "" => ""
  | String c r =>
      match skip with
      | S k => replace_go old new k r
      | O =>
          if String.prefix old s
          then new +:+ replace_go old new (String.length old - 1) r
          else String c (replace_go old new 0 r)
      end
  end.

(** With an empty [old], Python puts [new] around every character. *)
Fixpoint intersperse (new s : string) : string :=
  match s with
  | "" => new
  | String c r => new +:+ String c (intersperse new r)
  end.

Definition replace (old new s : string) : string :=
  if is_empty old then intersperse new s else replace_go old new 0 s.

(** [sep.join(items)] *)
Fixpoint join (sep : string) (items : list string) : string :=
  match items with
  | [] => ""
  | [x] => x
  | x :: rest => x +:+ sep +:+ join sep rest
  end.

(** [c in s] for one character. *)
Fixpoint has_char (c : ascii) (s : string) : bool :=
  match s with
  | "" => false
  | String d r => Ascii.eqb c d || has_char c r
  end.

End PyStr.

Import PyStr.

Definition LF : ascii := "010"%char.
Definition CR : ascii := "013"%char.
Definition nl : string := String LF "".
Definition cr : string := String CR "".

(** ** Name Normalizer *)

(** [re.sub(r"\s+", "_", s)]: scanning from the left, a maximal run of
    whitespace is one match; [in_run] tells that the current match has
    already been replaced. *)
Fixpoint sub_whitespace_go (in_run : bool) (s : string) : string :=
  match s with
  | "" => ""
  | String c r =>
      if isspace c
      then if in_run then sub_whitespace_go true r
           else String "_" (sub_whitespace_go true r)
      else String c (sub_whitespace_go false r)
  end.

Definition sub_whitespace (s : string) : string := sub_whitespace_go false s.

(** The class [[A-Za-z0-9._+-]]. *)
Definition is_safe_char (c : ascii) : bool :=
  let n := ord c in
  between 65 90 n || between 97 122 n || between 48 57 n
  || (n =? 46) || (n =? 95) || (n =? 43) || (n =? 45).

(** [re.sub(r"[^A-Za-z0-9._+-]", "_", s)] *)
Fixpoint sub_unsafe (s : string) : string :=
  match s with
  | "" => ""
  | String c r => String (if is_safe_char c then c else "_"%char) (sub_unsafe r)
  end.

Definition _norm_name (name : string) : string :=
  let s := sub_whitespace (strip name) in
  let s := sub_unsafe s in
  s.

(** The normalizer as the specification words it: every run of whitespace
    becomes one underscore, then every character outside the safe class
    becomes an underscore.  The text is cut into its maximal blocks of
    whitespace and of other characters. *)
Fixpoint blocks (s : string) : list (bool * string) :=
  match s with
  | "" => []
  | String c r =>
      match blocks r with
      | (b, chunk) :: rest =>
          if Bool.eqb b (isspace c)
          then (b, String c chunk) :: rest
          else (isspace c, String c "") :: (b, chunk) :: rest
      | [] => [(isspace c, String c "")]
      end
  end.

Definition block_text (b : bool * string) : string :=
  if b.1 then "_" else b.2.

Fixpoint concat_blocks (bs : list (bool * string)) : string :=
  match bs with
  | [] => ""
  | b :: rest => block_text b +:+ concat_blocks rest
  end.

Definition spec_normalize (name : string) : string :=
  sub_unsafe (concat_blocks (blocks name)).

(** ** License Inference Engine *)

(** The fields of [dist.metadata] the program reads: [get("Name")],
    [get("License")] and [get_all("Classifier")] (an absent repeated field is
    the empty list, as [or []] makes it). *)
Record Message := {
  Name : option string;
  License : option string;
  Classifier : list string
}.

(** A distribution of the catalog: [dist.metadata], [dist.name],
    [dist.version] and [dist.files] (the manifest, which may be absent). *)
Record Distribution := {
  metadata : Message;
  name : option string;
  version : option string;
  files : option (list string)
}.

(** The loop that keeps the classifiers starting, once stripped, with
    [License ::]. *)
Definition lic_classifiers (classifiers : list string) : list string :=
  fold_left
    (λ acc c, if startswith "License ::" (strip c) then acc ++ [strip c] else acc)
    classifiers [].

(** A loop [for x in xs: if key(x) not in seen: seen.add(key(x)); uniq.append(x)]. *)
Definition uniq_step {A} (key : A → string) (st : gset string * list A) (x : A)
    : gset string * list A :=
  if decide (key x ∈ st.1) then st else ({[key x]} ∪ st.1, st.2 ++ [x]).

Definition uniq_loop {A} (key : A → string) (xs : list A) : list A :=
  (fold_left (uniq_step key) xs (∅, [])).2.

Definition simplify_classifier (x : string) : string :=
  let s := strip (replace "OSI Approved ::" "" x) in
  if endswith "License" s
  then strip (drop_last (String.length "License") s)
  else s.

Definition _short_from_classifiers (items : list string) : string :=
  match items with
  | [] => ""
  | _ =>
      let cleaned := map (λ x, strip (replace "License ::" "" x)) items in
      let uniq := uniq_loop id cleaned in
      let simplified :=
        fold_left (λ acc x, acc ++ [simplify_classifier x]) uniq [] in
      join "; " simplified
  end.

Definition keywords : list string :=
  ["copyright"; "permission"; "warranty"; "redistribution"; "liability"].

Definition _looks_like_full_text (s : string) : bool :=
  if is_empty s then false
  else if contains nl s || contains cr s then true
  else if (120 <? String.length s)%nat then true
  else let low := lower s in existsb (λ k, contains k low) keywords.

Definition classifier_guess (meta : Message) : string :=
  _short_from_classifiers (lic_classifiers (Classifier meta)).

Definition lic_field (meta : Message) : string :=
  strip (default "" (License meta)).

Definition _infer_license_from_metadata (dist : Distribution) : string :=
  let meta := metadata dist in
  if _looks_like_full_text (lic_field meta)
  then or_else (classifier_guess meta) "UNKNOWN"
  else if negb (is_empty (lic_field meta))
          && negb (String.eqb (upper (lic_field meta)) "UNKNOWN")
  then lic_field meta
  else or_else (classifier_guess meta) "UNKNOWN".

(** The words of the specification, for comparison with the code. *)

(** "full-text-like": a newline, or more than 120 characters, or a keyword in
    the lowercase form. *)
Definition spec_full_text_like (s : string) : bool :=
  contains nl s || (120 <? String.length s)%nat
  || existsb (λ k, contains k (lower s)) keywords.

(** Keeps the first occurrence of every element, in order. *)
Fixpoint first_seen (xs : list string) : list string :=
  match xs with
  | [] => []
  | x :: rest => x :: filter (λ y, y ≠ x) (first_seen rest)
  end.

Definition drop_prefix (p s : string) : string :=
  String.substring (String.length p) (String.length s - String.length p) s.

(** The classifier guess as the specification words it: the values that begin
    with [License ::], that prefix stripped, trimmed, deduplicated in
    first-seen order, the [OSI Approved ::] marker and a trailing [License]
    removed, joined with [; ]. *)
Definition spec_classifier_guess (classifiers : list string) : string :=
  let qualifying := filter (λ c, startswith "License ::" c = true) classifiers in
  let stripped := map (λ c, strip (drop_prefix "License ::" c)) qualifying in
  join "; " (map simplify_classifier (first_seen stripped)).

(** The classifier guess with the two points where the code departs from
    those words: a value qualifies by its trimmed text, and every occurrence
    of [License ::] in it is removed. *)
Definition pipeline_classifier_guess (classifiers : list string) : string :=
  let qualifying :=
    filter (λ c, startswith "License ::" c = true) (map strip classifiers) in
  let cleaned := map (λ c, strip (replace "License ::" "" c)) qualifying in
  join "; " (map simplify_classifier (first_seen cleaned)).

(** A field that can be shown as it is: present, not blank, not the
    placeholder [UNKNOWN] in any case, not a license body. *)
Definition usable_license_field (meta : Message) : bool :=
  negb (is_empty (lic_field meta))
  && negb (String.eqb (upper (lic_field meta)) "UNKNOWN")
  && negb (_looks_like_full_text (lic_field meta)).

Definition has_linebreak (s : string) : bool := has_char LF s || has_char CR s.

(** ** License File Locator *)

Definition license_tokens : list string := ["LICENSE"; "COPYING"; "NOTICE"].

(** The class [[._-]]. *)
Definition is_separator (c : ascii) : bool :=
  let n := ord c in (n =? 46) || (n =? 95) || (n =? 45).

(** [$] stands at the end of the text or before one final newline. *)
Definition chomp (s : string) : string :=
  if endswith nl s then drop_last 1 s else s.

(** What may follow the token: nothing, or a separator and at least one
    character, none of them a newline ([.] does not match it). *)
Definition tail_matches (rest : string) : bool :=
  match chomp rest with
  | "" => true
  | String c body => is_separator c && negb (is_empty body) && negb (has_char LF body)
  end.

(** [LICENSE_BASENAME_RE.match(base)] for
    [^(LICENSE|COPYING|NOTICE)([._-].+)?$] with [re.IGNORECASE]. *)
Definition LICENSE_BASENAME_RE (base : string) : bool :=
  existsb
    (λ tok, startswith (lower tok) (lower base)
            && tail_matches (drop_prefix tok base))
    license_tokens.

Definition slash : ascii := "/"%char.

Fixpoint split_slash (s : string) : list string :=
  match s with
  | "" => [""]
  | String c r =>
      match split_slash r with
      | h :: t => if Ascii.eqb c slash then "" :: h :: t else String c h :: t
      | [] => [String c ""]
      end
  end.

(** [Path(s).name]: the last component, empty and [.] components dropped. *)
Definition path_name (s : string) : string :=
  List.last
    (List.filter (λ c, negb (is_empty c) && negb (String.eqb c ".")) (split_slash s))
    "".

Inductive copy_outcome :=
  | CopyDone
  | CopyError (e : string) (dst_written : bool).

(** The file system and the interpreter, as far as the program asks them.
    [rglob] lists the paths below a directory relative to it;
    [find_dist_info_dir] is the directory [_find_dist_info_dir] finds by its
    glob of the install root; [copy2] tells whether creating the output
    directory and copying a source to a destination name succeeds, and when
    it raises, whether the destination was written; [base_prefix] is
    [sys.base_prefix] and [py_ver] the first word of [sys.version]. *)
Record World := {
  locate_file : Distribution → string → string;
  is_file : string → bool;
  is_dir : string → bool;
  resolve : string → string;
  rglob : string → list string;
  site_packages : option string;
  find_dist_info_dir : Distribution → option string;
  copy2 : string → string → copy_outcome;
  base_prefix : string;
  py_ver : string
}.

Definition add_if_file (w : World) (paths : list string) (p : string) : list string :=
  if is_file w p then paths ++ [p] else paths.

(** One entry of [dist.files]. *)
Definition manifest_step (w : World) (dist : Distribution)
    (paths : list string) (f : string) : list string :=
  let s := replace "\" "/" f in
  let base := path_name s in
  let added := add_if_file w paths (locate_file w dist f) in
  if contains "/.dist-info/" s || endswith ".dist-info" s then
    if LICENSE_BASENAME_RE base then added
    else if contains "/.dist-info/licenses/" (lower s) then added
    else if LICENSE_BASENAME_RE base then added
    else paths
  else if LICENSE_BASENAME_RE base then added
  else paths.

Definition primary_tier (w : World) (dist : Distribution) : list string :=
  fold_left (manifest_step w dist) (default [] (files dist)) [].

Definition path_join (dir rel : string) : string := dir +:+ "/" +:+ rel.

(** One path of [dist_info_dir.rglob]. *)
Definition walk_step (w : World) (dir : string)
    (paths : list string) (rel : string) : list string :=
  let p := path_join dir rel in
  if negb (is_file w p) then paths
  else
    let base := path_name p in
    let rel' := lower (replace "\" "/" rel) in
    if LICENSE_BASENAME_RE base then paths ++ [p]
    else if startswith "licenses/" rel' then paths ++ [p]
    else paths.

Definition fallback_tier (w : World) (dir : string) : list string :=
  fold_left (walk_step w dir) (rglob w dir) [].

Definition resolved_key (w : World) (p : string) : string := lower (resolve w p).

Definition _select_license_files_from_dist (w : World) (dist : Distribution)
    (dist_info_dir : option string) : list string :=
  let paths := primary_tier w dist in
  let paths :=
    match paths, dist_info_dir with
    | [], Some dir => if is_dir w dir then fallback_tier w dir else paths
    | _, _ => paths
    end in
  uniq_loop (resolved_key w) paths.

(** ** Collector/Copier *)

Record DistLicenseCopy := {
  dist_name : string;
  dist_version : string;
  inferred_license : string;
  copied_files : list string
}.

(** The warnings, with the values their texts are formatted from. *)
Inductive Warning :=
  | WarnCopyFailed (dist_name dist_ver lf e : string)
  | WarnNoLicenseFile (dist_name dist_ver : string)
  | WarnNoPythonLicense.

Definition render_warning (wn : Warning) : string :=
  match wn with
  | WarnCopyFailed n v lf e =>
      "[WARN] copy failed: " +:+ n +:+ " " +:+ v +:+ " : " +:+ lf +:+ " : " +:+ e
  | WarnNoLicenseFile n v =>
      "[WARN] no license file found for: " +:+ n +:+ " " +:+ v
  | WarnNoPythonLicense =>
      "[WARN] Python runtime LICENSE was not found under sys.base_prefix."
  end.

(** The distribution a warning is about. *)
Definition warning_subject (wn : Warning) : option string :=
  match wn with
  | WarnCopyFailed n _ _ _ => Some n
  | WarnNoLicenseFile n _ => Some n
  | WarnNoPythonLicense => None
  end.

Definition dot : ascii := "."%char.

(** [name.rfind(".")] *)
Fixpoint rfind_dot (s : string) : option nat :=
  match s with
  | "" => None
  | String c r =>
      match rfind_dot r with
      | Some i => Some (S i)
      | None => if Ascii.eqb c dot then Some 0%nat else None
      end
  end.

(** [(dst.stem, dst.suffix)] of a file name. *)
Definition split_ext (fname : string) : string * string :=
  match rfind_dot fname with
  | Some i =>
      if (0 <? i)%nat && (i <? String.length fname - 1)%nat
      then (String.substring 0 i fname,
            String.substring i (String.length fname - i) fname)
      else (fname, "")
  | None => (fname, "")
  end.

Definition candidate (stem suffix : string) (i : nat) : string :=
  stem +:+ "_" +:+ pretty i +:+ suffix.

(** The output directory: the names in it and what each file holds (the
    source it was copied from). *)
Abbreviation out_dir_t := (gmap string string).

Definition exists_in (out : out_dir_t) (fname : string) : bool :=
  bool_decide (is_Some (out !! fname)).

(** The loop [while True] over the candidates from [i] on; [fuel] bounds the
    number of candidates tried. *)
Fixpoint first_free (out : out_dir_t) (stem suffix : string)
    (fuel i : nat) : option string :=
  match fuel with
  | O => None
  | S fuel' =>
      let cand := candidate stem suffix i in
      if exists_in out cand
      then first_free out stem suffix fuel' (S i)
      else Some cand
  end.

(** The destination name chosen for a file named [base]. *)
Definition target_name (prefix base : string) : string :=
  prefix +:+ "-" +:+ base.

Definition unique_name (out : out_dir_t) (base prefix : string) : option string :=
  let dst_name := target_name prefix base in
  if exists_in out dst_name
  then let '(stem, suffix) := split_ext dst_name in
       first_free out stem suffix (S (size out)) 2
  else Some dst_name.

Inductive copy_result :=
  | Copied (fname : string)
  | Raised (e : string).

(** Chooses the name, copies, and returns the name; [None] only if the
    search for a name were to run out of candidates. *)
Definition _copy_with_unique_name (w : World) (src : string) (out : out_dir_t)
    (prefix : string) : option (copy_result * out_dir_t) :=
  dst ← unique_name out (path_name src) prefix;
  match copy2 w src dst with
  | CopyDone => Some (Copied dst, <[dst := src]> out)
  | CopyError e written => Some (Raised e, if written then <[dst := src]> out else out)
  end.

Definition _try_copy_python_license (w : World) (out : out_dir_t)
    : option (option copy_result * out_dir_t) :=
  let candidates :=
    [path_join (base_prefix w) "LICENSE.txt";
     path_join (base_prefix w) "LICENSE";
     path_join (base_prefix w) "LICENSE.rst"] in
  match List.find (is_file w) candidates with
  | Some c => '(r, out') ← _copy_with_unique_name w c out "Python"; Some (Some r, out')
  | None => Some (None, out)
  end.

(** [sorted(xs, key=key)]: stable, by the order of strings. *)
Fixpoint insert_sorted {A} (key : A → string) (x : A) (l : list A) : list A :=
  match l with
  | [] => [x]
  | y :: l' =>
      if String.ltb (key y) (key x)
      then y :: insert_sorted key x l'
      else x :: l
  end.

Fixpoint sorted {A} (key : A → string) (l : list A) : list A :=
  match l with
  | [] => []
  | x :: l' => insert_sorted key x (sorted key l')
  end.

(** [a or b] where [None] and the empty string are falsy. *)
Definition or_opt (a b : option string) : option string :=
  match a with
  | Some s => if is_empty s then b else a
  | None => b
  end.

Definition truthy (a : option string) : bool :=
  match a with
  | Some s => negb (is_empty s)
  | None => false
  end.

Definition sort_key (d : Distribution) : string :=
  lower (default "" (or_opt (or_opt (Name (metadata d)) (name d)) (Some ""))).

Record Collected := {
  out_dir : out_dir_t;
  results : list DistLicenseCopy;
  warnings : list Warning
}.

(** One license file of a distribution: the [try] around the copy. *)
Definition copy_step (w : World) (dname dver prefix : string)
    (st : option (out_dir_t * list string * list Warning)) (lf : string)
    : option (out_dir_t * list string * list Warning) :=
  '(out, copied, warns) ← st;
  '(r, out') ← _copy_with_unique_name w lf out prefix;
  match r with
  | Copied copied_name => Some (out', copied ++ [copied_name], warns)
  | Raised e => Some (out', copied, warns ++ [WarnCopyFailed dname dver lf e])
  end.

Definition is_excluded (exclude : gset string) (dname : string) : bool :=
  bool_decide (lower (_norm_name dname) ∈ exclude)
  || bool_decide (lower dname ∈ exclude).

(** One distribution of the catalog. *)
Definition dist_step (w : World) (exclude : gset string)
    (acc : option Collected) (dist : Distribution) : option Collected :=
  st ← acc;
  match or_opt (Name (metadata dist)) (name dist) with
  | None => Some st
  | Some dname =>
      if is_empty dname then Some st
      else if is_excluded exclude dname then Some st
      else
        let dist_ver := default "UNKNOWN" (or_opt (version dist) None) in
        let inferred := _infer_license_from_metadata dist in
        let dist_info_dir := find_dist_info_dir w dist in
        let lic_files := _select_license_files_from_dist w dist dist_info_dir in
        let prefix := _norm_name dname in
        '(out, copied, warns) ←
          fold_left (copy_step w dname dist_ver prefix) lic_files
            (Some (out_dir st, [], warnings st));
        let warns :=
          match copied with
          | [] => warns ++ [WarnNoLicenseFile dname dist_ver]
          | _ => warns
          end in
        Some {| out_dir := out;
                results := results st ++
                  [{| dist_name := dname; dist_version := dist_ver;
                      inferred_license := inferred;
                      copied_files := sorted id copied |}];
                warnings := warns |}
  end.

(** The loop of [collect_licenses] over the catalog. *)
Definition collect_catalog (w : World) (exclude : gset string)
    (out : out_dir_t) (dists : list Distribution) : option Collected :=
  fold_left (dist_step w exclude) (sorted sort_key dists)
    (Some {| out_dir := out; results := []; warnings := [] |}).

Definition python_entry (w : World) (py_copied : string) : DistLicenseCopy :=
  {| dist_name := "Python"; dist_version := py_ver w;
     inferred_license := "Python Software Foundation License (PSF-2.0)";
     copied_files := [py_copied] |}.

(** How a call ends: with its value, or with the exception it lets through. *)
Inductive outcome (A : Type) :=
  | Returned (a : A)
  | Raise (e : string).
Arguments Returned {A} a.
Arguments Raise {A} e.

(** [collect_licenses]: the value returned or the exception raised, and the
    output directory as the call leaves it. *)
Definition collect_licenses (w : World) (out : out_dir_t) (exclude : gset string)
    (dists : list Distribution)
    : option (outcome (list DistLicenseCopy * list Warning) * out_dir_t) :=
  match site_packages w with
  | None => Some (Raise "site-packages", out)
  | Some _ =>
      st ← collect_catalog w exclude out dists;
      '(py, out') ← _try_copy_python_license w (out_dir st);
      match py with
      | Some (Copied py_copied) =>
          if is_empty py_copied
          then Some (Returned (results st, warnings st ++ [WarnNoPythonLicense]), out')
          else Some (Returned (results st ++ [python_entry w py_copied], warnings st), out')
      | Some (Raised e) => Some (Raise e, out')
      | None => Some (Returned (results st, warnings st ++ [WarnNoPythonLicense]), out')
      end
  end.

(** The exclude set [main] builds from [--exclude]. *)
Definition main_exclude (args_exclude : list string) : gset string :=
  list_to_set (map (λ x, lower (_norm_name x)) args_exclude).

(** ** Definitions the proofs use *)

Definition starts_with_space (s : string) : bool :=
  match s with
  | "" => false
  | String c _ => isspace c
  end.

(** The deduplication loop as a recursion over what is left to read. *)
Fixpoint uniq_from {A} (key : A → string) (seen : gset string) (l : list A) : list A :=
  match l with
  | [] => []
  | x :: r =>
      if decide (key x ∈ seen) then uniq_from key seen r
      else x :: uniq_from key ({[key x]} ∪ seen) r
  end.

(** Sample inputs. *)

Definition meta_of (cls : list string) (lic : option string) : Message :=
  {| Name := Some "Foo-Bar"; License := lic; Classifier := cls |}.

Definition dist_of (cls : list string) (lic : option string) : Distribution :=
  {| metadata := meta_of cls lic; name := Some "Foo-Bar";
     version := Some "1.2.3"; files := None |}.

(** The scenario of the specification: one classifier, no license field. *)
Definition dist_mit : Distribution :=
  dist_of ["License :: OSI Approved :: MIT License"] None.

(** A license field that holds a keyword, and a classifier of the same text. *)
Definition dist_copyright : Distribution :=
  dist_of ["License :: Copyright"] (Some "Copyright").

(** A classifier in which [License ::] occurs twice. *)
Definition dist_twice : Distribution :=
  dist_of ["License :: A License :: B"] None.

(** A classifier folded over two lines. *)
Definition dist_folded : Distribution :=
  dist_of ["License :: A" +:+ nl +:+ "B"] None.


(** A world in which every path is a regular file and every directory
    exists, with the install root [/sp]. *)
Definition w_all : World :=
  {| locate_file := λ _ f, "/sp/" +:+ f;
     is_file := λ _, true;
     is_dir := λ _, true;
     resolve := λ p, p;
     rglob := λ _, ["LICENSE"; "METADATA"; "licenses/AUTHORS.md"];
     site_packages := Some "/sp";
     find_dist_info_dir := λ _, Some "/sp/foo-1.0.dist-info";
     copy2 := λ _ _, CopyDone;
     base_prefix := "/py";
     py_ver := "3.11.4" |}.

Definition dist_named (n : string) (manifest : option (list string)) : Distribution :=
  {| metadata := {| Name := Some n; License := None; Classifier := [] |};
     name := Some n; version := Some "1.0"; files := manifest |}.

(** A wheel that ships [LICENSE] and [licenses/AUTHORS.md] in its metadata
    directory. *)
Definition dist_wheel : Distribution :=
  dist_named "foo"
    (Some ["foo-1.0.dist-info/LICENSE"; "foo-1.0.dist-info/licenses/AUTHORS.md"]).

(** The names copied in a run, over all its records. *)
Definition all_copied (rs : list DistLicenseCopy) : list string :=
  concat (map copied_files rs).

(** The shape of a copied name: the target name, or the target name with a
    number from 2 on put before its extension. *)
Definition name_form (prefix fname : string) : Prop :=
  ∃ base : string,
    let target := target_name prefix base in
    fname = target
    ∨ ∃ i : nat, (2 ≤ i)%nat
        ∧ fname = candidate (split_ext target).1 (split_ext target).2 i.

(** What [_copy_with_unique_name] promises of the name it chooses for a file
    named [base]: it is not in the output directory; it is the target name if
    that one is free; otherwise it is the first free candidate from 2 on. *)
Definition is_unique_name_for (out : out_dir_t) (prefix base fname : string) : Prop :=
  let target := target_name prefix base in
  let stem := (split_ext target).1 in
  let suffix := (split_ext target).2 in
  stem +:+ suffix = target
  ∧ out !! fname = None
  ∧ (out !! target = None → fname = target)
  ∧ (is_Some (out !! target) →
       ∃ i : nat, (2 ≤ i)%nat ∧ fname = candidate stem suffix i
         ∧ ∀ j : nat, (2 ≤ j < i)%nat → is_Some (out !! candidate stem suffix j)).

(** [key x] is not after [key y] in the order of strings. *)
Definition key_le {A} (key : A → string) (x y : A) : Prop :=
  String.ltb (key y) (key x) = false.

(** The name under which the collector knows a distribution. *)
Definition dist_name_of (d : Distribution) : option string :=
  or_opt (Name (metadata d)) (name d).

(** The two [continue] of the loop of [collect_licenses]. *)
Definition skipped (exclude : gset string) (d : Distribution) : bool :=
  match dist_name_of d with
  | None => true
  | Some dname => is_empty dname || is_excluded exclude dname
  end.

(** What holds of the state of a run that started from the output directory
    [out0]: the files that were there are untouched, the copied names are
    pairwise different, new and in the directory, each of the shape its
    distribution gives it, and every record and warning is about a
    distribution with a name that is not excluded. *)
Record run_inv (exclude : gset string) (out0 : gmap string string)
    (st : Collected) : Prop := {
  inv_kept : out0 ⊆ out_dir st;
  inv_nodup : NoDup (all_copied (results st));
  inv_new : ∀ n, n ∈ all_copied (results st) →
              out0 !! n = None ∧ is_Some (out_dir st !! n);
  inv_form : ∀ r n, r ∈ results st → n ∈ copied_files r →
               name_form (_norm_name (dist_name r)) n;
  inv_records : ∀ r, r ∈ results st →
                  dist_name r ≠ "" ∧ is_excluded exclude (dist_name r) = false;
  inv_warnings : ∀ wn, wn ∈ warnings st →
                   ∃ n, warning_subject wn = Some n ∧ n ≠ ""
                        ∧ is_excluded exclude n = false
}.

(** What holds while the license files of one distribution are copied;
    [names0] are the names copied for the distributions before it. *)
Definition copy_inv (out0 : gmap string string) (names0 : list string)
    (prefix : string) (out : gmap string string) (copied : list string) : Prop :=
  out0 ⊆ out
  ∧ NoDup (names0 ++ copied)
  ∧ (∀ n, n ∈ names0 ++ copied → out0 !! n = None ∧ is_Some (out !! n))
  ∧ Forall (name_form prefix) copied.

(** A distribution of the catalog that the collector passes over: its turn in
    the loop changes nothing, and a run with it in the catalog is the run
    without it (same records, same warnings, same output directory). *)
Definition leaves_no_trace (w : World) (exclude : gset string) (d : Distribution) : Prop :=
  (∀ acc : option Collected, dist_step w exclude acc d = acc)
  ∧ (∀ (out : gmap string string) (before after : list Distribution),
       collect_licenses w out exclude (before ++ d :: after)
       = collect_licenses w out exclude (before ++ after)).

(** No record of the catalog loop and no warning is about the name [dname]. *)
Definition nothing_about (st : Collected) (dname : string) : Prop :=
  (∀ r, r ∈ results st → dist_name r ≠ dname)
  ∧ (∀ wn, wn ∈ warnings st → warning_subject wn ≠ Some dname).

(** A distribution literally named [pip], and one without any name. *)
Definition dist_pip : Distribution := dist_named "pip" (Some ["pip/LICENSE"]).

Definition dist_nameless : Distribution :=
  {| metadata := {| Name := None; License := Some "MIT"; Classifier := [] |};
     name := Some ""; version := Some "1.0"; files := Some ["x/LICENSE"] |}.

(** A distribution with two files named [LICENSE], and the run that copies
    them into an empty output directory. *)
Definition dist_two_licenses : Distribution :=
  dist_named "foo" (Some ["foo/LICENSE"; "foo/vendored/LICENSE"]).

Definition run_two_results : list DistLicenseCopy :=
  [{| dist_name := "foo"; dist_version := "1.0"; inferred_license := "UNKNOWN";
      copied_files := ["foo-LICENSE"; "foo-LICENSE_2"] |};
   python_entry w_all "Python-LICENSE.txt"].

Definition run_two_out : gmap string string :=
  <["Python-LICENSE.txt" := "/py/LICENSE.txt"]>
    (<["foo-LICENSE_2" := "/sp/foo/vendored/LICENSE"]>
       {["foo-LICENSE" := "/sp/foo/LICENSE"]}).

(** ** The rest of the program *)

(** The interpreter, as [_site_packages_dir] asks it: [sys.prefix], and the
    paths that the pattern [python*/site-packages] yields below
    [<prefix>/lib], in the order of the glob. *)
Record Interpreter := {
  sys_prefix : string;
  glob_python_site_packages : list string
}.

(** [_site_packages_dir]; [None] is the [SystemExit] it raises. *)
Definition _site_packages_dir (w : World) (py : Interpreter) : option string :=
  let p := path_join (path_join (sys_prefix py) "Lib") "site-packages" in
  if is_dir w p then Some p
  else
    let p2 := path_join (sys_prefix py) "lib" in
    if is_dir w p2
    then List.find (is_dir w) (glob_python_site_packages py)
    else None.

(** The install root, as [_find_dist_info_dir] asks it: its path, the names
    that [glob("*.dist-info")] yields in it, and [pattern_match name ver n],
    the result of matching the name [n] against the regular expression that
    the function compiles from the name and the version of a distribution. *)
Record InstallRoot := {
  root_path : string;
  glob_dist_info : list string;
  pattern_match : string → string → string → bool
}.

(** [candidates.sort(key=lambda x: len(x.name))]: stable, by length. *)
Fixpoint insert_by_len (x : string) (l : list string) : list string :=
  match l with
  | [] => [x]
  | y :: l' =>
      if (String.length y <? String.length x)%nat
      then y :: insert_by_len x l'
      else x :: l
  end.

Fixpoint sorted_by_len (l : list string) : list string :=
  match l with
  | [] => []
  | x :: l' => insert_by_len x (sorted_by_len l')
  end.

(** The second loop of [_find_dist_info_dir]: the names of the directories
    that hold the normalized name and the version. *)
Definition loose_candidates (w : World) (root : InstallRoot)
    (dname dver : string) : list string :=
  fold_left
    (λ acc n,
       if negb (is_dir w (path_join (root_path root) n)) then acc
       else
         let low := lower n in
         if contains (lower (_norm_name dname)) low && contains (lower dver) low
         then acc ++ [n] else acc)
    (glob_dist_info root) [].

(** [_find_dist_info_dir]; without a name [re.escape] raises. *)
Definition _find_dist_info_dir (w : World) (root : InstallRoot)
    (dist : Distribution) : outcome (option string) :=
  match or_opt (Name (metadata dist)) (name dist) with
  | None => Raise "TypeError"
  | Some dname =>
      let dver := default "UNKNOWN" (or_opt (version dist) None) in
      match List.find
              (λ n, is_dir w (path_join (root_path root) n)
                    && pattern_match root dname dver n)
              (glob_dist_info root) with
      | Some n => Returned (Some (path_join (root_path root) n))
      | None =>
          match sorted_by_len (loose_candidates w root dname dver) with
          | n :: _ => Returned (Some (path_join (root_path root) n))
          | [] => Returned None
          end
      end
  end.

(** One record of the notices: the body of the loop over [copies]. *)
Definition notice_step (lines : list string) (c : DistLicenseCopy) : list string :=
  let lines := lines ++ ["- " +:+ dist_name c +:+ " " +:+ dist_version c] in
  let lines := lines ++ ["  Declared/Detected License: " +:+ inferred_license c] in
  let lines :=
    match copied_files c with
    | [] => lines ++ ["  Included license files: (NOT FOUND)"]
    | _ =>
        fold_left (λ ls f, ls ++ ["    - licenses/" +:+ f]) (copied_files c)
          (lines ++ ["  Included license files:"])
    end in
  lines ++ [""].

Definition notices_header (now : string) : list string :=
  ["THIRD PARTY NOTICES";
   "";
   "Generated: " +:+ now;
   "Output license directory: licenses";
   "";
   "This product bundles third-party software components.";
   "The following notices are provided for attribution and license compliance.";
   ""].

(** The lines of [write_third_party_notices]; [now] is the formatted time. *)
Definition notices_lines (now : string) (copies : list DistLicenseCopy)
    (warns : list string) : list string :=
  let lines := notices_header now in
  let lines :=
    fold_left notice_step (sorted (λ x, lower (dist_name x)) copies) lines in
  match warns with
  | [] => lines
  | _ =>
      fold_left (λ ls wn, ls ++ [wn]) warns (lines ++ ["WARNINGS"; ""]) ++ [""]
  end.

(** The text that [write_third_party_notices] writes. *)
Definition write_third_party_notices (now : string) (copies : list DistLicenseCopy)
    (warns : list string) : string :=
  join nl (notices_lines now copies warns).

(** ** Definitions the further proofs use *)

(** Every character of [s] satisfies [P]. *)
Fixpoint all_chars (P : ascii → bool) (s : string) : bool :=
  match s with
  | "" => true
  | String c r => P c && all_chars P r
  end.

(** A name with whitespace at both ends and inside. *)
Definition name_spaced : string := "  My  Package/1 ".

(** A license field that is the placeholder in mixed case, and a usable one. *)
Definition dist_placeholder : Distribution :=
  dist_of ["License :: OSI Approved :: BSD License"] (Some " UnKnOwN ").

Definition dist_usable : Distribution :=
  dist_of ["License :: OSI Approved :: BSD License"] (Some "Apache-2.0").

(** The test of [manifest_step] on one entry, its nested conditions put
    together: the entry resolves to a regular file, and its basename is a
    license basename or its path holds both marker texts. *)
Definition manifest_keeps (w : World) (dist : Distribution) (f : string) : bool :=
  let s := replace "\" "/" f in
  is_file w (locate_file w dist f)
  && (LICENSE_BASENAME_RE (path_name s)
      || ((contains "/.dist-info/" s || endswith ".dist-info" s)
          && contains "/.dist-info/licenses/" (lower s))).

(** The test of [walk_step] on one path below the metadata directory. *)
Definition walk_keeps (w : World) (dir rel : string) : bool :=
  is_file w (path_join dir rel)
  && (LICENSE_BASENAME_RE (path_name (path_join dir rel))
      || startswith "licenses/" (lower (replace "\" "/" rel))).

(** The paths the two tiers find, before the duplicates are removed. *)
Definition candidate_paths (w : World) (dist : Distribution)
    (dist_info_dir : option string) : list string :=
  match primary_tier w dist, dist_info_dir with
  | [], Some dir => if is_dir w dir then fallback_tier w dir else []
  | paths, _ => paths
  end.

Definition is_digit (c : ascii) : bool := between 48 57 (ord c).

(** The version under which the collector records a distribution. *)
Definition dist_version_of (d : Distribution) : string :=
  default "UNKNOWN" (or_opt (version d) None).

(** What a record says of its distribution, its copied files apart. *)
Definition record_head (r : DistLicenseCopy) : string * string * string :=
  (dist_name r, dist_version r, inferred_license r).

Definition dist_head (d : Distribution) : string * string * string :=
  (default "" (dist_name_of d), dist_version_of d, _infer_license_from_metadata d).

(** The places where [_try_copy_python_license] looks. *)
Definition python_license_candidates (w : World) : list string :=
  [path_join (base_prefix w) "LICENSE.txt";
   path_join (base_prefix w) "LICENSE";
   path_join (base_prefix w) "LICENSE.rst"].

(** A world like [w_all] in which no file can be copied, and one without any
    regular file. *)
Definition w_no_copy : World :=
  {| locate_file := locate_file w_all; is_file := is_file w_all;
     is_dir := is_dir w_all; resolve := resolve w_all; rglob := rglob w_all;
     site_packages := site_packages w_all;
     find_dist_info_dir := find_dist_info_dir w_all;
     copy2 := λ _ _, CopyError "denied" false;
     base_prefix := base_prefix w_all; py_ver := py_ver w_all |}.

Definition w_no_files : World :=
  {| locate_file := locate_file w_all; is_file := λ _, false;
     is_dir := λ _, false; resolve := resolve w_all; rglob := λ _, [];
     site_packages := site_packages w_all;
     find_dist_info_dir := λ _, None;
     copy2 := copy2 w_all;
     base_prefix := base_prefix w_all; py_ver := py_ver w_all |}.

(** The state of the catalog loop after the run of [dist_two_licenses] in
    [w_all], and after the run of a distribution without license file. *)
Definition catalog_two : Collected :=
  {| out_dir := <["foo-LICENSE_2" := "/sp/foo/vendored/LICENSE"]>
                  {["foo-LICENSE" := "/sp/foo/LICENSE"]};
     results := [{| dist_name := "foo"; dist_version := "1.0";
                    inferred_license := "UNKNOWN";
                    copied_files := ["foo-LICENSE"; "foo-LICENSE_2"] |}];
     warnings := [] |}.

Definition dist_baz : Distribution :=
  {| metadata := {| Name := Some "Baz"; License := Some "MIT"; Classifier := [] |};
     name := Some "Baz"; version := Some "0.1"; files := None |}.

Definition catalog_baz : Collected :=
  {| out_dir := ∅;
     results := [{| dist_name := "Baz"; dist_version := "0.1";
                    inferred_license := "MIT"; copied_files := [] |}];
     warnings := [WarnNoLicenseFile "Baz" "0.1"] |}.

(** The lines that [notice_step] adds for one record. *)
Definition notice_block (c : DistLicenseCopy) : list string :=
  ["- " +:+ dist_name c +:+ " " +:+ dist_version c;
   "  Declared/Detected License: " +:+ inferred_license c]
  ++ match copied_files c with
     | [] => ["  Included license files: (NOT FOUND)"]
     | fs => "  Included license files:" :: map (λ f, "    - licenses/" +:+ f) fs
     end
  ++ [""].

(** An interpreter of the Unix layout, and an install root with two
    metadata directories that hold the name and the version. *)
Definition py_unix : Interpreter :=
  {| sys_prefix := "/venv";
     glob_python_site_packages := ["/venv/lib/python3.11/site-packages"] |}.

Definition w_unix : World :=
  {| locate_file := locate_file w_all; is_file := is_file w_all;
     is_dir := λ p, negb (String.eqb p "/venv/Lib/site-packages");
     resolve := resolve w_all; rglob := rglob w_all;
     site_packages := site_packages w_all;
     find_dist_info_dir := find_dist_info_dir w_all;
     copy2 := copy2 w_all;
     base_prefix := base_prefix w_all; py_ver := py_ver w_all |}.

(** Whether [_find_dist_info_dir] takes the entry [n] in its first loop. *)
Definition exact_match (w : World) (root : InstallRoot) (dname dver n : string)
    : bool :=
  is_dir w (path_join (root_path root) n) && pattern_match root dname dver n.

(** A world in which [/sp/Foo-1.0.dist-info] is no directory, and two install
    roots for the distribution [foo] of version [1.0], whose pattern matches
    the names [foo-1.0.dist-info] in any letter case: one holds such names,
    the other only names of a later version tag. *)
Definition w_dist_infos : World :=
  {| locate_file := locate_file w_all; is_file := is_file w_all;
     is_dir := λ p, negb (String.eqb p "/sp/Foo-1.0.dist-info");
     resolve := resolve w_all; rglob := rglob w_all;
     site_packages := site_packages w_all;
     find_dist_info_dir := find_dist_info_dir w_all;
     copy2 := copy2 w_all;
     base_prefix := base_prefix w_all; py_ver := py_ver w_all |}.

Definition root_exact : InstallRoot :=
  {| root_path := "/sp";
     glob_dist_info := ["foo_extras-1.0.dist-info"; "Foo-1.0.dist-info";
                        "foo-1.0.dist-info"; "FOO-1.0.dist-info"];
     pattern_match := λ _ _ n, String.eqb (lower n) "foo-1.0.dist-info" |}.

Definition root_loose : InstallRoot :=
  {| root_path := "/sp";
     glob_dist_info := ["foo_extras-1.0.post1.dist-info"; "Foo-1.0.dist-info";
                        "foo-1.0.post1.dist-info"; "foo-1.0.post2.dist-info"];
     pattern_match := λ _ _ n, String.eqb (lower n) "foo-1.0.dist-info" |}.

(** ** The copies of a run, file by file *)

(** What became of one license file. *)
Inductive file_outcome :=
  | CopiedAs (fname : string)
  | FailedWith (e : string).

(** The copies of the files [lfs], one after the other, from the directory
    [out] to the directory [out']: each file gets the name chosen for its
    basename in the directory as it is at its turn; a copy that succeeds puts
    the file there under that name, a copy that raises is passed over. *)
Fixpoint copies_in_turn (w : World) (prefix : string) (out : gmap string string)
    (lfs : list string) (os : list file_outcome) (out' : gmap string string) : Prop :=
  match lfs, os with
  | [], [] => out' = out
  | lf :: lfs', o :: os' =>
      ∃ fname : string,
        is_unique_name_for out prefix (path_name lf) fname
        ∧ match o with
          | CopiedAs m =>
              m = fname ∧ copy2 w lf fname = CopyDone
              ∧ copies_in_turn w prefix (<[fname := lf]> out) lfs' os' out'
          | FailedWith e =>
              ∃ written : bool,
                copy2 w lf fname = CopyError e written
                ∧ copies_in_turn w prefix
                    (if written then <[fname := lf]> out else out) lfs' os' out'
          end
  | _, _ => False
  end.

(** The names of the files that were copied, in order. *)
Definition copied_names (os : list file_outcome) : list string :=
  omap (λ o, match o with CopiedAs n => Some n | FailedWith _ => None end) os.

(** The warnings of the files that were not, each naming its file. *)
Definition failure_warnings (dname dver : string) (lfs : list string)
    (os : list file_outcome) : list Warning :=
  omap (λ p, match p.2 with
             | FailedWith e => Some (WarnCopyFailed dname dver p.1 e)
             | CopiedAs _ => None
             end)
    (zip lfs os).



(** ** The Locator on a handle of the catalog *)

(** A distribution of the catalog as the Locator gets it: the fields read
    from it, and the exception that reading [dist.files] raises when the
    manifest cannot be read. *)
Record Handle := {
  handle_dist : Distribution;
  files_error : option string
}.

(** [_select_license_files_from_dist] on a handle.  The function has no
    [try]: what the read of the manifest raises, it raises. *)
Definition locate (w : World) (h : Handle) (dist_info_dir : option string)
    : outcome (list string) :=
  match files_error h with
  | Some e => Raise e
  | None => Returned (_select_license_files_from_dist w (handle_dist h) dist_info_dir)
  end.

Definition is_ascii (c : ascii) : bool := ord c <? 128.

(** Sample inputs. *)


Definition dist_twice_listed : Distribution :=
  dist_named "foo" (Some ["foo/LICENSE"; "FOO/LICENSE"; "foo/COPYING"]).

Definition handle_twice_listed : Handle :=
  {| handle_dist := dist_twice_listed; files_error := None |}.

(** A world in which [/sp/foo/COPYING] is the only regular file. *)
Definition w_one_file : World :=
  {| locate_file := locate_file w_all;
     is_file := λ p, String.eqb p "/sp/foo/COPYING";
     is_dir := is_dir w_all; resolve := resolve w_all; rglob := rglob w_all;
     site_packages := site_packages w_all;
     find_dist_info_dir := find_dist_info_dir w_all;
     copy2 := copy2 w_all;
     base_prefix := base_prefix w_all; py_ver := py_ver w_all |}.

(** A world in which the copy of [/sp/foo/LICENSE] is denied. *)
Definition w_one_denied : World :=
  {| locate_file := locate_file w_all; is_file := is_file w_all;
     is_dir := is_dir w_all; resolve := resolve w_all; rglob := rglob w_all;
     site_packages := site_packages w_all;
     find_dist_info_dir := find_dist_info_dir w_all;
     copy2 := λ src _, if String.eqb src "/sp/foo/LICENSE"
                       then CopyError "denied" false else CopyDone;
     base_prefix := base_prefix w_all; py_ver := py_ver w_all |}.

(** A catalog of two distributions given in the reverse of their order. *)
Definition catalog_zeta_alpha : Collected :=
  {| out_dir := ∅;
     results := [{| dist_name := "Alpha"; dist_version := "1.0";
                    inferred_license := "UNKNOWN"; copied_files := [] |};
                 {| dist_name := "zeta"; dist_version := "1.0";
                    inferred_license := "UNKNOWN"; copied_files := [] |}];
     warnings := [WarnNoLicenseFile "Alpha" "1.0"; WarnNoLicenseFile "zeta" "1.0"] |}.

(** * Properties *)

(** ** Text *)

Lemma app_nil_l_str (s : string) : "" +:+ s = s.
Proof. reflexivity. Qed.

Lemma app_cons_str (c : ascii) (a s : string) :
  String c a +:+ s = String c (a +:+ s).
Proof. reflexivity. Qed.

Lemma app_nil_r_str (s : string) : s +:+ "" = s.
Proof. induction s as [|c s IH]; [done|]. by rewrite app_cons_str, IH. Qed.

Lemma app_assoc_str (a b c : string) : (a +:+ b) +:+ c = a +:+ (b +:+ c).
Proof. induction a as [|x a IH]; [done|]. by rewrite !app_cons_str, IH. Qed.

Lemma is_empty_true (s : string) : is_empty s = true ↔ s = "".
Proof. by destruct s. Qed.

Lemma is_empty_false (s : string) : is_empty s = false ↔ s ≠ "".
Proof. by destruct s. Qed.


(** ** Name Normalizer *)

Lemma blocks_head (c : ascii) (r : string) :
  ∃ chunk rest, blocks (String c r) = (isspace c, chunk) :: rest.
Proof.
  simpl. destruct (blocks r) as [|[b chunk] rest]; [by eauto|].
  destruct (Bool.eqb b (isspace c)) eqn:E; [|by eauto].
  apply Bool.eqb_prop in E. subst b. by eauto.
Qed.

Lemma sub_whitespace_go_blocks (in_run : bool) (s : string) :
  sub_whitespace_go in_run s =
  if in_run && starts_with_space s
  then concat_blocks (tail (blocks s))
  else concat_blocks (blocks s).
Proof.
  revert in_run. induction s as [|c r IH]; intros in_run.
  { by destruct in_run. }
  cbn [sub_whitespace_go starts_with_space blocks].
  assert (Hhead : match blocks r with
                  | [] => r = ""
                  | (b, _) :: _ => b = starts_with_space r
                  end).
  { destruct r as [|c' r']; [done|].
    destruct (blocks_head c' r') as (chunk & rest & ->). done. }
  destruct (isspace c) eqn:Hc.
  - rewrite (IH true). destruct (blocks r) as [|[b chunk] rest].
    + subst r. by destruct in_run.
    + subst b. destruct (starts_with_space r); by destruct in_run.
  - rewrite (IH false), andb_false_r. cbn [andb].
    destruct (blocks r) as [|[b chunk] rest]; [done|].
    by destruct b.
Qed.

Lemma sub_whitespace_blocks (s : string) :
  sub_whitespace s = concat_blocks (blocks s).
Proof. unfold sub_whitespace. by rewrite sub_whitespace_go_blocks. Qed.

Example norm_name_plain : _norm_name "Foo-Bar" = "Foo-Bar".
Proof. reflexivity. Qed.

Example norm_name_spaces : _norm_name "  my  pkg/x " = "my_pkg_x".
Proof. reflexivity. Qed.

(** C8, as stated, fails: the code trims the name first, so leading and
    trailing whitespace disappears instead of becoming an underscore. *)
Lemma norm_name_not_spec_normalize :
  ¬ (∀ name : string, _norm_name name = spec_normalize name).
Proof. intros H. specialize (H " a"). vm_compute in H. discriminate. Qed.

(** C8, amended: [_norm_name name] is the name trimmed of leading and trailing
    whitespace, then every run of whitespace replaced by one underscore, then
    every character outside [A-Za-z0-9._+-] replaced by an underscore; it is a
    total function. *)
Theorem norm_name_is_spec_normalize_of_strip (name : string) :
  _norm_name name = spec_normalize (strip name).
Proof. unfold _norm_name, spec_normalize. by rewrite sub_whitespace_blocks. Qed.

(** ** Loops as list operations *)

Lemma fold_left_append_if {A B} (p : A → bool) (f : A → B) (l : list A) (acc : list B) :
  fold_left (λ acc x, if p x then acc ++ [f x] else acc) l acc =
  acc ++ map f (filter (λ x, p x = true) l).
Proof.
  revert acc. induction l as [|x l IH]; intros acc; cbn [fold_left].
  { by rewrite app_nil_r. }
  rewrite IH, filter_cons. destruct (p x) eqn:Hp.
  - rewrite decide_True by done. cbn [map]. by rewrite <- app_assoc.
  - by rewrite decide_False by done.
Qed.

Lemma fold_left_append_map {A B} (f : A → B) (l : list A) (acc : list B) :
  fold_left (λ acc x, acc ++ [f x]) l acc = acc ++ map f l.
Proof.
  revert acc. induction l as [|x l IH]; intros acc; cbn [fold_left map].
  { by rewrite app_nil_r. }
  by rewrite IH, <- app_assoc.
Qed.


Lemma uniq_fold_from {A} (key : A → string) (l : list A) (seen : gset string) (acc : list A) :
  (fold_left (uniq_step key) l (seen, acc)).2 = acc ++ uniq_from key seen l.
Proof.
  revert seen acc. induction l as [|x l IH]; intros seen acc; cbn [fold_left uniq_from].
  { by rewrite app_nil_r. }
  unfold uniq_step at 2. cbn [fst snd].
  destruct (decide (key x ∈ seen)); [apply IH|].
  by rewrite IH, <- app_assoc.
Qed.

Lemma uniq_loop_from {A} (key : A → string) (l : list A) :
  uniq_loop key l = uniq_from key ∅ l.
Proof. unfold uniq_loop. by rewrite uniq_fold_from. Qed.

Lemma uniq_from_elem {A} (key : A → string) (l : list A) (seen : gset string) (x : A) :
  x ∈ uniq_from key seen l → x ∈ l ∧ key x ∉ seen.
Proof.
  revert seen. induction l as [|y l IH]; intros seen; cbn [uniq_from].
  { by intros ?%elem_of_nil. }
  destruct (decide (key y ∈ seen)).
  - intros [??]%IH. split; [by right|done].
  - intros [->|[??]%IH]%elem_of_cons.
    + split; [by left|done].
    + split; [by right|set_solver].
Qed.


Lemma uniq_from_union {A} (key : A → string) (l : list A) (s1 s2 : gset string) :
  uniq_from key (s1 ∪ s2) l = filter (λ x, key x ∉ s1) (uniq_from key s2 l).
Proof.
  revert s2. induction l as [|y l IH]; intros s2; cbn [uniq_from]; [done|].
  destruct (decide (key y ∈ s2)) as [H2|H2].
  - rewrite decide_True by set_solver. apply IH.
  - destruct (decide (key y ∈ s1)) as [H1|H1].
    + rewrite decide_True by set_solver.
      rewrite filter_cons, decide_False by (intros ?; done).
      rewrite <- IH. f_equal. set_solver.
    + rewrite decide_False by set_solver.
      rewrite filter_cons, decide_True by done.
      f_equal. rewrite <- IH. f_equal. set_solver.
Qed.

Lemma uniq_from_first_seen (l : list string) :
  uniq_from id ∅ l = first_seen l.
Proof.
  induction l as [|x l IH]; cbn [uniq_from first_seen]; [done|].
  rewrite decide_False by set_solver. f_equal.
  rewrite <- IH, (uniq_from_union id l {[id x]} ∅).
  apply list_filter_iff. intros y. unfold id. set_solver.
Qed.

(** ** License Inference Engine *)

Lemma lic_classifiers_filter (cs : list string) :
  lic_classifiers cs =
  filter (λ c, startswith "License ::" c = true) (map strip cs).
Proof.
  unfold lic_classifiers.
  rewrite (fold_left_append_if (λ c, startswith "License ::" (strip c)) strip).
  rewrite app_nil_l. induction cs as [|c cs IH]; [done|].
  cbn [map]. rewrite !filter_cons, <- IH.
  destruct (decide (startswith "License ::" (strip c) = true)); done.
Qed.

Lemma short_from_classifiers_pipeline (items : list string) :
  _short_from_classifiers items =
  join "; " (map simplify_classifier
               (first_seen (map (λ c, strip (replace "License ::" "" c)) items))).
Proof.
  destruct items as [|x items]; [done|].
  unfold _short_from_classifiers.
  by rewrite fold_left_append_map, app_nil_l, uniq_loop_from, uniq_from_first_seen.
Qed.

Lemma classifier_guess_pipeline (meta : Message) :
  classifier_guess meta = pipeline_classifier_guess (Classifier meta).
Proof.
  unfold classifier_guess, pipeline_classifier_guess.
  by rewrite short_from_classifiers_pipeline, lic_classifiers_filter.
Qed.

Example infer_mit : _infer_license_from_metadata dist_mit = "MIT".
Proof. reflexivity. Qed.

Example infer_field_verbatim :
  _infer_license_from_metadata (dist_of [] (Some " Apache-2.0 ")) = "Apache-2.0".
Proof. reflexivity. Qed.

Example infer_unknown_field :
  _infer_license_from_metadata (dist_of [] (Some "unknown")) = "UNKNOWN".
Proof. reflexivity. Qed.

(** C2, as stated, fails: the code removes every occurrence of [License ::]
    from a value, not only the prefix. *)
Lemma classifier_guess_not_spec :
  ¬ (∀ meta : Message, classifier_guess meta = spec_classifier_guess (Classifier meta)).
Proof.
  intros H. specialize (H (metadata dist_twice)). vm_compute in H. discriminate.
Qed.

(** C2, amended: the classifier guess is built from exactly the Classifier
    values whose trimmed text begins with [License ::], by removing every
    occurrence of [License ::] from the trimmed value, trimming, deduplicating
    in first-seen order, removing the [OSI Approved ::] marker and a trailing
    [License] (trimmed), and joining with [; ]; the distribution with the one
    classifier [License :: OSI Approved :: MIT License] and no license field
    is labelled [MIT]. *)
Theorem classifier_guess_is_pipeline :
  (∀ meta : Message, classifier_guess meta = pipeline_classifier_guess (Classifier meta))
  ∧ (∀ dist : Distribution,
       Classifier (metadata dist) = ["License :: OSI Approved :: MIT License"] →
       License (metadata dist) = None →
       _infer_license_from_metadata dist = "MIT").
Proof.
  split; [apply classifier_guess_pipeline|].
  intros dist Hc Hl. unfold _infer_license_from_metadata, lic_field, classifier_guess.
  by rewrite Hc, Hl.
Qed.

Lemma classifier_guess_is_pipeline_witness :
  _infer_license_from_metadata dist_mit = "MIT".
Proof. apply (proj2 classifier_guess_is_pipeline dist_mit); reflexivity. Defined.

Lemma spec_full_text_like_looks (s : string) :
  spec_full_text_like s = true → _looks_like_full_text s = true.
Proof.
  destruct s as [|c s]; [by vm_compute|].
  unfold spec_full_text_like, _looks_like_full_text. cbn [is_empty].
  generalize (String c s). intros t.
  destruct (contains nl t); [done|]. destruct (contains cr t); [done|].
  cbn [orb]. destruct (120 <? String.length t)%nat; done.
Qed.

Lemma infer_full_text (dist : Distribution) :
  _looks_like_full_text (lic_field (metadata dist)) = true →
  _infer_license_from_metadata dist =
  or_else (classifier_guess (metadata dist)) "UNKNOWN".
Proof. intros H. unfold _infer_license_from_metadata. by rewrite H. Qed.

(** C1, as stated, fails: nothing keeps the classifier guess from being the
    very text of the license field. *)
Lemma full_text_field_can_be_the_label :
  ¬ (∀ (dist : Distribution) (raw : string),
       License (metadata dist) = Some raw →
       spec_full_text_like raw = true →
       spec_full_text_like (lic_field (metadata dist)) = true →
       _infer_license_from_metadata dist =
         or_else (classifier_guess (metadata dist)) "UNKNOWN"
       ∧ _infer_license_from_metadata dist ≠ raw).
Proof.
  intros H.
  destruct (H dist_copyright "Copyright") as [_ Hne]; [done..|].
  by apply Hne.
Qed.

(** C1, amended: when the trimmed License field is full-text-like, infer
    returns the classifier guess, or [UNKNOWN] when the guess is empty; the
    label is computed from the Classifier values alone, and it is the raw
    License field only if the classifier guess is that same text. *)
Theorem full_text_field_yields_classifier_guess (dist : Distribution) :
  spec_full_text_like (lic_field (metadata dist)) = true →
  _infer_license_from_metadata dist =
    or_else (classifier_guess (metadata dist)) "UNKNOWN"
  ∧ (∀ raw : string,
       License (metadata dist) = Some raw →
       _infer_license_from_metadata dist = raw →
       classifier_guess (metadata dist) = raw).
Proof.
  intros Hspec. pose proof (spec_full_text_like_looks _ Hspec) as Hlooks.
  rewrite (infer_full_text _ Hlooks). split; [done|].
  intros raw Hraw. unfold or_else.
  destruct (is_empty (classifier_guess (metadata dist))); [|done].
  intros <-. unfold lic_field in Hlooks. rewrite Hraw in Hlooks.
  by vm_compute in Hlooks.
Qed.

Lemma full_text_field_yields_classifier_guess_witness :
  _infer_license_from_metadata dist_copyright =
    or_else (classifier_guess (metadata dist_copyright)) "UNKNOWN"
  ∧ (∀ raw : string,
       License (metadata dist_copyright) = Some raw →
       _infer_license_from_metadata dist_copyright = raw →
       classifier_guess (metadata dist_copyright) = raw).
Proof.
  apply (full_text_field_yields_classifier_guess dist_copyright). reflexivity.
Defined.



(** *** Characters of the label *)

Lemma has_char_app (c : ascii) (a b : string) :
  has_char c (a +:+ b) = has_char c a || has_char c b.
Proof.
  induction a as [|d a IH]; [done|].
  rewrite app_cons_str. cbn [has_char]. by rewrite IH, orb_assoc.
Qed.

Lemma has_char_lstrip (c : ascii) (s : string) :
  has_char c (lstrip s) = true → has_char c s = true.
Proof.
  induction s as [|d s IH]; [done|]. cbn [lstrip].
  destruct (isspace d); [|done].
  intros H%IH. cbn [has_char]. by rewrite H, orb_true_r.
Qed.

Lemma has_char_rstrip (c : ascii) (s : string) :
  has_char c (rstrip s) = true → has_char c s = true.
Proof.
  induction s as [|d s IH]; [done|]. cbn [rstrip].
  destruct (isspace d && is_empty (rstrip s)); [done|].
  cbn [has_char]. destruct (Ascii.eqb c d); [done|]. exact IH.
Qed.

Lemma has_char_strip (c : ascii) (s : string) :
  has_char c (strip s) = true → has_char c s = true.
Proof. intros H. by apply has_char_lstrip, has_char_rstrip. Qed.

Lemma has_char_substring (c : ascii) (n m : nat) (s : string) :
  has_char c (String.substring n m s) = true → has_char c s = true.
Proof.
  revert n m. induction s as [|d s IH]; intros n m.
  { by destruct n, m. }
  destruct n as [|n]; cbn [String.substring].
  - destruct m as [|m]; [done|]. cbn [has_char].
    destruct (Ascii.eqb c d); [done|]. apply IH.
  - intros H%IH. cbn [has_char]. by rewrite H, orb_true_r.
Qed.

Lemma has_char_replace_go (c : ascii) (old new : string) (k : nat) (s : string) :
  has_char c (replace_go old new k s) = true →
  has_char c s = true ∨ has_char c new = true.
Proof.
  revert k. induction s as [|d s IH]; intros k; [done|].
  cbn [replace_go has_char]. destruct k as [|k].
  - destruct (String.prefix old (String d s)).
    + rewrite has_char_app. intros [H|H]%orb_true_iff; [by right|].
      destruct (IH _ H) as [H'|H']; [left|by right].
      by rewrite H', orb_true_r.
    + cbn [has_char]. destruct (Ascii.eqb c d); [by left|]. apply IH.
  - intros H. destruct (IH _ H) as [H'|H']; [left|by right].
    by rewrite H', orb_true_r.
Qed.

Lemma has_char_intersperse (c : ascii) (new s : string) :
  has_char c (intersperse new s) = true →
  has_char c s = true ∨ has_char c new = true.
Proof.
  induction s as [|d s IH]; cbn [intersperse]; [by right|].
  rewrite has_char_app. cbn [has_char].
  intros [H|H]%orb_true_iff; [by right|].
  destruct (Ascii.eqb c d); [by left|]. apply IH, H.
Qed.

Lemma has_char_replace (c : ascii) (old new s : string) :
  has_char c (replace old new s) = true →
  has_char c s = true ∨ has_char c new = true.
Proof.
  unfold replace. destruct (is_empty old);
    [apply has_char_intersperse|apply has_char_replace_go].
Qed.

Lemma has_char_join (c : ascii) (sep : string) (l : list string) :
  has_char c (join sep l) = true →
  has_char c sep = true ∨ ∃ x, x ∈ l ∧ has_char c x = true.
Proof.
  induction l as [|x l IH]; [done|]. cbn [join]. destruct l as [|y l].
  { intros H. right. exists x. split; [by left|done]. }
  rewrite !has_char_app. intros [H|[H|H]%orb_true_iff]%orb_true_iff.
  - right. exists x. split; [by left|done].
  - by left.
  - destruct (IH H) as [?|(z & Hz & ?)]; [by left|].
    right. exists z. split; [by right|done].
Qed.

Lemma contains_char (c : ascii) (s : string) :
  contains (String c "") s = has_char c s.
Proof.
  induction s as [|d s IH]; [done|]. cbn [contains has_char String.prefix].
  rewrite IH. destruct (ascii_dec c d) as [->|Hne].
  - rewrite Ascii.eqb_refl. by destruct s.
  - by apply Ascii.eqb_neq in Hne as ->.
Qed.

Lemma has_char_simplify_classifier (c : ascii) (x : string) :
  has_char c (simplify_classifier x) = true → has_char c x = true.
Proof.
  unfold simplify_classifier.
  assert (has_char c (strip (replace "OSI Approved ::" "" x)) = true →
          has_char c x = true) as Hstep.
  { intros H%has_char_strip. by destruct (has_char_replace _ _ _ _ H). }
  destruct (endswith _ _); [|done].
  intros H%has_char_strip. unfold drop_last in H.
  apply has_char_substring in H. by apply Hstep.
Qed.

Lemma first_seen_elem (x : string) (l : list string) :
  x ∈ first_seen l → x ∈ l.
Proof.
  induction l as [|y l IH]; cbn [first_seen]; [done|].
  intros [->|[_ ?]%list_elem_of_filter]%elem_of_cons; [by left|].
  right. by apply IH.
Qed.

Lemma has_char_classifier_guess (c : ascii) (meta : Message) :
  has_char c "; " = false →
  has_char c (classifier_guess meta) = true →
  ∃ v, v ∈ Classifier meta
       ∧ startswith "License ::" (strip v) = true
       ∧ has_char c (strip v) = true.
Proof.
  intros Hsep. rewrite classifier_guess_pipeline. unfold pipeline_classifier_guess.
  intros [H|(x & Hx & Hc)]%has_char_join; [congruence|].
  apply list_elem_of_fmap in Hx as (y & -> & Hy).
  apply has_char_simplify_classifier in Hc.
  apply first_seen_elem, list_elem_of_fmap in Hy as (z & -> & Hz).
  apply has_char_strip in Hc.
  apply list_elem_of_filter in Hz as [Hstart Hz].
  apply list_elem_of_fmap in Hz as (v & -> & Hv).
  exists v. split_and!; [done..|].
  by destruct (has_char_replace _ _ _ _ Hc).
Qed.

Lemma has_linebreak_false (s : string) :
  has_linebreak s = false ↔ has_char LF s = false ∧ has_char CR s = false.
Proof. unfold has_linebreak. apply orb_false_iff. Qed.

Lemma looks_like_full_text_linebreak (s : string) :
  _looks_like_full_text s = false → has_linebreak s = false.
Proof.
  unfold _looks_like_full_text, has_linebreak, nl, cr.
  destruct s as [|c s]; [done|]. cbn [is_empty].
  rewrite !contains_char. by destruct (has_char LF _ || has_char CR _).
Qed.

Example infer_folded_classifier :
  _infer_license_from_metadata dist_folded = "A" +:+ nl +:+ "B".
Proof. reflexivity. Qed.

(** C5, as stated, fails: a classifier value folded over two lines keeps its
    line break in the label. *)
Lemma infer_label_can_hold_linebreak :
  ¬ (∀ dist : Distribution,
       has_linebreak (_infer_license_from_metadata dist) = false).
Proof. intros H. specialize (H dist_folded). by vm_compute in H. Qed.

(** C5, amended: when no Classifier value that begins (trimmed) with
    [License ::] holds a line break inside, the label returned by infer holds
    no line-break character (line feed or carriage return). *)
Theorem infer_label_single_line (dist : Distribution) :
  (∀ c : string, c ∈ Classifier (metadata dist) →
     startswith "License ::" (strip c) = true →
     has_linebreak (strip c) = false) →
  has_linebreak (_infer_license_from_metadata dist) = false.
Proof.
  intros Hcls.
  assert (has_linebreak (or_else (classifier_guess (metadata dist)) "UNKNOWN") = false)
    as Hguess.
  { unfold or_else. destruct (is_empty _); [done|].
    apply has_linebreak_false. split; apply not_true_is_false; intros Hc.
    - apply has_char_classifier_guess in Hc as (v & Hv & Hs & Hc); [|done].
      apply Hcls, has_linebreak_false in Hv as [Hv _]; congruence.
    - apply has_char_classifier_guess in Hc as (v & Hv & Hs & Hc); [|done].
      apply Hcls, has_linebreak_false in Hv as [_ Hv]; congruence. }
  unfold _infer_license_from_metadata.
  destruct (_looks_like_full_text _) eqn:Hlooks; [done|].
  destruct (_ && _); [|done].
  by apply looks_like_full_text_linebreak.
Qed.

Lemma infer_label_single_line_witness :
  has_linebreak (_infer_license_from_metadata dist_mit) = false.
Proof.
  apply (infer_label_single_line dist_mit).
  intros c Hc _. apply list_elem_of_singleton in Hc as ->. reflexivity.
Defined.

(** ** License File Locator *)

Example license_basename_examples :
  map LICENSE_BASENAME_RE
    ["LICENSE"; "license-MIT"; "LICENSE_BSD_Simple.txt"; "NOTICE.thirdparty";
     "COPYING"; "LICENSES"; "COPYING_"; "AUTHORS.md"; "LICENSE" +:+ nl]
  = [true; true; true; true; true; false; false; false; true].
Proof. reflexivity. Qed.

Example path_name_examples :
  map path_name ["foo-1.0.dist-info/licenses/AUTHORS.md"; "a/b/"; ""; "a/./b/."; "/"]
  = ["AUTHORS.md"; "b"; ""; "b"; ""].
Proof. reflexivity. Qed.

(** A manifest entry whose path holds neither the text [/.dist-info/] nor the
    ending [.dist-info] is kept by its basename alone: a place under
    [licenses/] does not count for it. *)
Lemma manifest_step_outside_marker (w : World) (dist : Distribution)
    (paths : list string) (f : string) :
  contains "/.dist-info/" (replace "\" "/" f) = false →
  endswith ".dist-info" (replace "\" "/" f) = false →
  LICENSE_BASENAME_RE (path_name (replace "\" "/" f)) = false →
  manifest_step w dist paths f = paths.
Proof. unfold manifest_step. by intros -> -> ->. Qed.

(** C3: the code misses what the specification says.  For a wheel whose manifest
    lists [foo-1.0.dist-info/LICENSE] and
    [foo-1.0.dist-info/licenses/AUTHORS.md], both regular files on disk, the
    primary tier keeps the first only: the test for the metadata directory
    looks for the text [/.dist-info/], which the path of a metadata directory
    [foo-1.0.dist-info] does not hold.  The fallback tier, which is not
    entered here, does keep the file under [licenses/]. *)
Theorem primary_tier_misses_licenses_subdir :
  primary_tier w_all dist_wheel = ["/sp/foo-1.0.dist-info/LICENSE"]
  ∧ _select_license_files_from_dist w_all dist_wheel (Some "/sp/foo-1.0.dist-info")
    = ["/sp/foo-1.0.dist-info/LICENSE"]
  ∧ "/sp/foo-1.0.dist-info/licenses/AUTHORS.md"
      ∈ fallback_tier w_all "/sp/foo-1.0.dist-info".
Proof.
  split_and!; [by vm_compute..|].
  vm_compute. apply elem_of_cons. right. by left.
Qed.

(** ** Collector/Copier: the choice of a name *)

Lemma app_inv_head_str (s a b : string) : s +:+ a = s +:+ b → a = b.
Proof.
  induction s as [|c s IH]; [done|].
  rewrite !app_cons_str. intros [= H]. by apply IH.
Qed.

Lemma length_app_str (a b : string) :
  String.length (a +:+ b) = (String.length a + String.length b)%nat.
Proof.
  induction a as [|c a IH]; [done|].
  rewrite app_cons_str. cbn [String.length]. by rewrite IH.
Qed.

Lemma app_inv_tail_str (s a b : string) : a +:+ s = b +:+ s → a = b.
Proof.
  revert b. induction a as [|c a IH]; intros [|d b] H.
  - done.
  - apply (f_equal String.length) in H.
    rewrite app_nil_l_str, length_app_str in H. cbn [String.length] in H. lia.
  - apply (f_equal String.length) in H.
    rewrite app_nil_l_str, length_app_str in H. cbn [String.length] in H. lia.
  - rewrite !app_cons_str in H. injection H as -> H. f_equal. by apply IH.
Qed.

Lemma candidate_inj (stem suffix : string) (i j : nat) :
  candidate stem suffix i = candidate stem suffix j → i = j.
Proof.
  unfold candidate. intros H.
  apply app_inv_head_str, app_inv_head_str, app_inv_tail_str in H.
  by apply (inj pretty) in H.
Qed.

Lemma exists_in_true (out : gmap string string) (n : string) :
  exists_in out n = true ↔ is_Some (out !! n).
Proof. unfold exists_in. apply bool_decide_eq_true. Qed.

Lemma exists_in_false (out : gmap string string) (n : string) :
  exists_in out n = false ↔ out !! n = None.
Proof.
  unfold exists_in. rewrite bool_decide_eq_false. symmetry. apply eq_None_not_Some.
Qed.

Lemma first_free_some (out : gmap string string) (stem suffix : string)
    (fuel i : nat) (n : string) :
  first_free out stem suffix fuel i = Some n →
  ∃ k : nat, (k < fuel)%nat ∧ n = candidate stem suffix (i + k)
    ∧ out !! n = None
    ∧ ∀ j : nat, (j < k)%nat → is_Some (out !! candidate stem suffix (i + j)).
Proof.
  revert i. induction fuel as [|fuel IH]; intros i; cbn [first_free]; [done|].
  destruct (exists_in out (candidate stem suffix i)) eqn:Hex.
  - intros (k & Hk & -> & Hfree & Hbusy)%IH.
    exists (S k). split_and!; [lia|f_equal; lia|done|].
    intros [|j] Hj.
    + rewrite Nat.add_0_r. by apply exists_in_true.
    + replace (i + S j)%nat with (S i + j)%nat by lia. apply Hbusy. lia.
  - intros [= <-]. exists 0%nat. rewrite Nat.add_0_r.
    split_and!; [lia|done|by apply exists_in_false|intros j Hj; lia].
Qed.

Lemma first_free_none (out : gmap string string) (stem suffix : string)
    (fuel i : nat) :
  first_free out stem suffix fuel i = None →
  ∀ j : nat, (j < fuel)%nat → is_Some (out !! candidate stem suffix (i + j)).
Proof.
  revert i. induction fuel as [|fuel IH]; intros i; cbn [first_free].
  { intros _ j Hj. lia. }
  destruct (exists_in out (candidate stem suffix i)) eqn:Hex; [|done].
  intros Hnone [|j] Hj.
  - rewrite Nat.add_0_r. by apply exists_in_true.
  - replace (i + S j)%nat with (S i + j)%nat by lia. apply (IH _ Hnone). lia.
Qed.

(** The loop ends: a directory of [size out] files cannot hold more than
    [size out] of the candidates, which are pairwise different. *)
Lemma first_free_total (out : gmap string string) (stem suffix : string)
    (fuel i : nat) :
  (size out < fuel)%nat → is_Some (first_free out stem suffix fuel i).
Proof.
  intros Hfuel.
  destruct (first_free out stem suffix fuel i) eqn:Hff; [by eexists|].
  exfalso. pose proof (first_free_none _ _ _ _ _ Hff) as Hbusy.
  set (cands := (λ j, candidate stem suffix (i + j)) <$> seq 0 fuel).
  assert (NoDup cands) as Hnd.
  { apply NoDup_fmap_2; [|apply NoDup_seq].
    intros j1 j2 Heq%candidate_inj. lia. }
  assert (list_to_set cands ⊆ dom out) as Hsub.
  { intros n (j & -> & Hj%elem_of_seq)%elem_of_list_to_set%list_elem_of_fmap.
    apply elem_of_dom, Hbusy. lia. }
  apply subseteq_size in Hsub.
  rewrite size_list_to_set, size_dom in Hsub by done.
  unfold cands in Hsub. rewrite length_fmap, length_seq in Hsub. lia.
Qed.

Lemma substring_full (s : string) : String.substring 0 (String.length s) s = s.
Proof. induction s as [|c s IH]; [done|]. cbn. by rewrite IH. Qed.

Lemma substring_split (i : nat) (s : string) :
  (i ≤ String.length s)%nat →
  String.substring 0 i s +:+ String.substring i (String.length s - i) s = s.
Proof.
  revert i. induction s as [|c s IH]; intros i Hi.
  { cbn [String.length] in Hi. by replace i with 0%nat by lia. }
  destruct i as [|i].
  - rewrite Nat.sub_0_r, substring_full. done.
  - cbn [String.substring String.length] in Hi |- *.
    rewrite app_cons_str. f_equal. apply IH. lia.
Qed.

Lemma split_ext_app (fname : string) :
  (split_ext fname).1 +:+ (split_ext fname).2 = fname.
Proof.
  unfold split_ext. destruct (rfind_dot fname) as [i|]; [|apply app_nil_r_str].
  destruct (_ && _) eqn:Hcond; [|apply app_nil_r_str].
  apply andb_true_iff in Hcond as [_ Hlt%Nat.ltb_lt].
  apply substring_split. lia.
Qed.

Lemma unique_name_spec (out : gmap string string) (base prefix : string) :
  ∃ fname : string,
    unique_name out base prefix = Some fname
    ∧ is_unique_name_for out prefix base fname.
Proof.
  unfold unique_name, is_unique_name_for.
  pose proof (split_ext_app (target_name prefix base)) as Happ.
  destruct (split_ext (target_name prefix base)) as [stem suffix] eqn:Hsplit.
  cbn [fst snd] in *.
  destruct (exists_in out (target_name prefix base)) eqn:Hex.
  - destruct (first_free_total out stem suffix (S (size out)) 2) as [fname Hff]; [lia|].
    exists fname. split; [done|].
    apply first_free_some in Hff as (k & Hk & -> & Hfree & Hbusy).
    apply exists_in_true in Hex. split_and!; [done..| |].
    + intros Hnone. rewrite Hnone in Hex. by destruct Hex.
    + intros _. exists (2 + k)%nat. split_and!; [lia|done|].
      intros j Hj. replace j with (2 + (j - 2))%nat by lia. apply Hbusy. lia.
  - apply exists_in_false in Hex. exists (target_name prefix base).
    split_and!; [done..|].
    intros Hsome. rewrite Hex in Hsome. by destruct Hsome.
Qed.

Example unique_name_first :
  unique_name ∅ "LICENSE" "foo" = Some "foo-LICENSE".
Proof. by vm_compute. Qed.

Example unique_name_second :
  unique_name {["foo-LICENSE" := "/sp/foo/LICENSE"]} "LICENSE" "foo"
  = Some "foo-LICENSE_2".
Proof. by vm_compute. Qed.

Example unique_name_third_txt :
  unique_name
    (<["foo-LICENSE_2.txt" := "b"]> {["foo-LICENSE.txt" := "a"]}) "LICENSE.txt" "foo"
  = Some "foo-LICENSE_3.txt".
Proof. by vm_compute. Qed.

(** ** Sorting *)

Section sorting.
Context {A : Type} (key : A → string).

Lemma ltb_false_leb (a b : string) :
  String.ltb a b = false ↔ String.leb b a = true.
Proof.
  unfold String.ltb, String.leb. rewrite (String.compare_antisym b a).
  destruct (String.compare a b); cbn; split; congruence.
Qed.

Lemma key_le_trans (x y z : A) : key_le key x y → key_le key y z → key_le key x z.
Proof.
  unfold key_le. rewrite !ltb_false_leb. intros Hxy Hyz.
  apply Is_true_true. apply Is_true_true in Hxy, Hyz.
  exact (transitivity (R := String.le) Hxy Hyz).
Qed.

Lemma ltb_key_le (x y : A) : String.ltb (key y) (key x) = true → key_le key y x.
Proof.
  unfold key_le, String.ltb. rewrite (String.compare_antisym (key x) (key y)).
  destruct (String.compare (key y) (key x)); cbn; congruence.
Qed.

Lemma insert_sorted_perm (x : A) (l : list A) : insert_sorted key x l ≡ₚ x :: l.
Proof.
  induction l as [|y l IH]; cbn [insert_sorted]; [done|].
  destruct (String.ltb (key y) (key x)); [|done].
  rewrite IH. apply Permutation_swap.
Qed.

Lemma sorted_perm (l : list A) : sorted key l ≡ₚ l.
Proof.
  induction l as [|x l IH]; cbn [sorted]; [done|].
  by rewrite insert_sorted_perm, IH.
Qed.

Lemma insert_sorted_first (x : A) (l : list A) :
  Forall (key_le key x) l → insert_sorted key x l = x :: l.
Proof.
  destruct l as [|y l]; [done|]. intros [Hy _]%Forall_cons.
  cbn [insert_sorted]. unfold key_le in Hy. by rewrite Hy.
Qed.

Lemma insert_sorted_sorted (x : A) (l : list A) :
  StronglySorted (key_le key) l → StronglySorted (key_le key) (insert_sorted key x l).
Proof.
  induction l as [|y l IH]; cbn [insert_sorted]; intros Hs.
  { by repeat constructor. }
  apply StronglySorted_inv in Hs as [Hl Hy].
  destruct (String.ltb (key y) (key x)) eqn:Hlt.
  - constructor; [by apply IH|].
    rewrite insert_sorted_perm. constructor; [by apply ltb_key_le|done].
  - constructor; [by constructor|].
    constructor; [done|].
    eapply Forall_impl; [exact Hy|]. intros z Hz. by eapply key_le_trans.
Qed.

Lemma sorted_sorted (l : list A) : StronglySorted (key_le key) (sorted key l).
Proof.
  induction l as [|x l IH]; cbn [sorted]; [constructor|].
  by apply insert_sorted_sorted.
Qed.

Context (P : A → Prop) `{!∀ x, Decision (P x)}.

Lemma filter_insert_sorted (x : A) (l : list A) :
  StronglySorted (key_le key) l →
  filter P (insert_sorted key x l) =
  if decide (P x) then insert_sorted key x (filter P l) else filter P l.
Proof.
  induction l as [|y l IH]; intros Hs.
  { cbn [insert_sorted]. rewrite filter_cons. by destruct (decide (P x)). }
  apply StronglySorted_inv in Hs as [Hl Hy].
  cbn [insert_sorted]. destruct (String.ltb (key y) (key x)) eqn:Hlt.
  - rewrite !filter_cons, (IH Hl).
    destruct (decide (P x)), (decide (P y)); try done.
    cbn [insert_sorted]. by rewrite Hlt.
  - rewrite (filter_cons _ x). destruct (decide (P x)); [|done].
    rewrite insert_sorted_first; [done|].
    apply Forall_forall. intros z [_ Hz]%list_elem_of_filter.
    apply elem_of_cons in Hz as [->|Hz]; [done|].
    apply (key_le_trans x y z); [done|].
    by apply (proj1 (Forall_forall _ _) Hy).
Qed.

Lemma filter_sorted (l : list A) :
  filter P (sorted key l) = sorted key (filter P l).
Proof.
  induction l as [|x l IH]; [done|]. cbn [sorted].
  rewrite filter_insert_sorted by apply sorted_sorted.
  rewrite filter_cons. destruct (decide (P x)); [|done].
  cbn [sorted]. by rewrite IH.
Qed.
End sorting.

(** ** Collector/Copier: the run *)

Lemma unique_name_form (out : gmap string string) (prefix base fname : string) :
  is_unique_name_for out prefix base fname → name_form prefix fname.
Proof.
  intros (_ & _ & Hfree & Hbusy). exists base. cbn zeta.
  destruct (out !! target_name prefix base) eqn:Ht.
  - right. destruct Hbusy as (i & Hi & -> & _); [by eexists|]. by exists i.
  - left. by apply Hfree.
Qed.

Lemma copy_with_unique_name_spec (w : World) (src : string)
    (out : gmap string string) (prefix : string) :
  ∃ r out',
    _copy_with_unique_name w src out prefix = Some (r, out')
    ∧ out ⊆ out'
    ∧ ∀ n, r = Copied n →
        is_unique_name_for out prefix (path_name src) n ∧ out' !! n = Some src.
Proof.
  unfold _copy_with_unique_name.
  destruct (unique_name_spec out (path_name src) prefix) as (n & -> & Hspec).
  cbn [mbind option_bind]. pose proof Hspec as (_ & Hfree & _).
  destruct (copy2 w src n) as [|e written]; eexists _, _; (split; [done|]).
  - split; [by apply insert_subseteq|].
    intros ? [= <-]. split; [done|apply lookup_insert_eq].
  - split; [|by intros ? [=]].
    destruct written; [by apply insert_subseteq|done].
Qed.

Lemma copy_loop_spec (w : World) (dname dver prefix : string)
    (out0 : gmap string string) (names0 : list string) (lfs : list string) :
  ∀ (out : gmap string string) (copied : list string) (warns : list Warning),
    copy_inv out0 names0 prefix out copied →
    ∃ out' copied' extra,
      fold_left (copy_step w dname dver prefix) lfs (Some (out, copied, warns))
        = Some (out', copied', warns ++ extra)
      ∧ copy_inv out0 names0 prefix out' copied'
      ∧ Forall (λ wn, warning_subject wn = Some dname) extra.
Proof.
  induction lfs as [|lf lfs IH]; intros out copied warns Hinv.
  { exists out, copied, []. by rewrite app_nil_r. }
  cbn [fold_left]. unfold copy_step at 2. cbn [mbind option_bind].
  destruct (copy_with_unique_name_spec w lf out prefix) as (r & out1 & -> & Hsub & Hr).
  cbn [mbind option_bind].
  destruct Hinv as (Hkept & Hnd & Hnew & Hform).
  assert (∀ n, n ∈ names0 ++ copied → out0 !! n = None ∧ is_Some (out1 !! n)) as Hnew1.
  { intros n [Hn0 [c Hc]]%Hnew. split; [done|].
    exists c. by eapply lookup_weaken. }
  destruct r as [n|e].
  - destruct (Hr n eq_refl) as [Hspec Hn]. pose proof Hspec as (_ & Hfree & _).
    destruct (IH out1 (copied ++ [n]) warns) as (out' & copied' & extra & Hfold & Hinv' & Hex).
    { split_and!.
      - by transitivity out.
      - rewrite app_assoc. apply NoDup_app. split_and!; [done| |apply NoDup_singleton].
        intros m Hm ->%list_elem_of_singleton.
        apply Hnew in Hm as [_ [c Hc]]. congruence.
      - intros m. rewrite app_assoc.
        intros [Hm| ->%list_elem_of_singleton]%elem_of_app; [by apply Hnew1|].
        split; [|by eexists].
        destruct (out0 !! n) as [c|] eqn:H0; [|done].
        pose proof (lookup_weaken _ _ _ _ H0 Hkept). congruence.
      - apply Forall_app. split; [done|].
        apply Forall_singleton. by eapply unique_name_form. }
    by exists out', copied', extra.
  - destruct (IH out1 copied (warns ++ [WarnCopyFailed dname dver lf e]))
      as (out' & copied' & extra & Hfold & Hinv' & Hex).
    { split_and!; [by transitivity out|done..]. }
    exists out', copied', (WarnCopyFailed dname dver lf e :: extra).
    split_and!; [|done|by constructor].
    rewrite Hfold. by rewrite <- app_assoc.
Qed.

Lemma all_copied_snoc (rs : list DistLicenseCopy) (r : DistLicenseCopy) :
  all_copied (rs ++ [r]) = all_copied rs ++ copied_files r.
Proof.
  unfold all_copied. rewrite map_app, concat_app. cbn. by rewrite app_nil_r.
Qed.

Lemma all_copied_elem (rs : list DistLicenseCopy) (n : string) :
  n ∈ all_copied rs ↔ ∃ r, r ∈ rs ∧ n ∈ copied_files r.
Proof.
  unfold all_copied. induction rs as [|r0 rs IH]; cbn [map concat].
  { split; [by intros ?%elem_of_nil|by intros (r & ?%elem_of_nil & _)]. }
  rewrite elem_of_app, IH. split.
  - intros [Hn|(r & Hr & Hn)]; [exists r0|exists r]; (split; [|done]);
      [by left|by right].
  - intros (r & [->|Hr]%elem_of_cons & Hn); [by left|right; eauto].
Qed.

Lemma dist_step_skipped (w : World) (exclude : gset string)
    (acc : option Collected) (d : Distribution) :
  skipped exclude d = true → dist_step w exclude acc d = acc.
Proof.
  unfold skipped, dist_step, dist_name_of. intros Hskip.
  destruct acc as [st|]; [|done]. cbn [mbind option_bind].
  destruct (or_opt _ _) as [dname|]; [|done].
  destruct (is_empty dname); [done|]. cbn [orb] in Hskip. by rewrite Hskip.
Qed.

Lemma dist_step_spec (w : World) (exclude : gset string)
    (out0 : gmap string string) (st : Collected) (d : Distribution) :
  run_inv exclude out0 st →
  ∃ st', dist_step w exclude (Some st) d = Some st' ∧ run_inv exclude out0 st'.
Proof.
  intros Hinv. destruct (skipped exclude d) eqn:Hskip.
  { exists st. split; [by apply dist_step_skipped|done]. }
  unfold skipped, dist_name_of in Hskip. unfold dist_step. cbn [mbind option_bind].
  destruct (or_opt _ _) as [dname|]; [|done].
  apply orb_false_iff in Hskip as [Hne Hex]. rewrite Hne, Hex.
  destruct Hinv as [Hkept Hnd Hnew Hform Hrec Hwarn].
  set (dver := default "UNKNOWN" (or_opt (version d) None)).
  destruct (copy_loop_spec w dname dver (_norm_name dname) out0
              (all_copied (results st))
              (_select_license_files_from_dist w d (find_dist_info_dir w d))
              (out_dir st) [] (warnings st))
    as (out' & copied' & extra & -> & (Hkept' & Hnd' & Hnew' & Hform') & Hextra).
  { split_and!; [done|by rewrite app_nil_r|by rewrite app_nil_r|constructor]. }
  cbn [mbind option_bind]. eexists. split; [done|].
  assert (Hperm : sorted id copied' ≡ₚ copied') by apply sorted_perm.
  split; cbn [out_dir results warnings].
  - done.
  - rewrite all_copied_snoc. cbn [copied_files]. by rewrite Hperm.
  - intros n. rewrite all_copied_snoc. cbn [copied_files]. rewrite Hperm. apply Hnew'.
  - intros r n [Hr| ->%list_elem_of_singleton]%elem_of_app; [by apply Hform|].
    cbn [copied_files dist_name]. rewrite Hperm. intros Hn.
    by apply (proj1 (Forall_forall _ _) Hform').
  - intros r [Hr| ->%list_elem_of_singleton]%elem_of_app; [by apply Hrec|].
    cbn [dist_name]. split; [by apply is_empty_false|done].
  - assert (∀ wn, wn ∈ warnings st ++ extra →
              ∃ n, warning_subject wn = Some n ∧ n ≠ "" ∧ is_excluded exclude n = false)
      as Hw.
    { intros wn [Hwn|Hwn]%elem_of_app; [by apply Hwarn|].
      exists dname. split_and!; [|by apply is_empty_false|done].
      by apply (proj1 (Forall_forall _ _) Hextra). }
    destruct copied'; [|done].
    intros wn [Hwn| ->%list_elem_of_singleton]%elem_of_app; [by apply Hw|].
    exists dname. split_and!; [done|by apply is_empty_false|done].
Qed.

Lemma dist_loop_spec (w : World) (exclude : gset string)
    (out0 : gmap string string) (ds : list Distribution) (st : Collected) :
  run_inv exclude out0 st →
  ∃ st', fold_left (dist_step w exclude) ds (Some st) = Some st'
         ∧ run_inv exclude out0 st'.
Proof.
  revert st. induction ds as [|d ds IH]; intros st Hinv; [by exists st|].
  cbn [fold_left].
  destruct (dist_step_spec w exclude out0 st d Hinv) as (st1 & -> & Hinv1).
  by apply IH.
Qed.

Lemma collect_catalog_spec (w : World) (exclude : gset string)
    (out : gmap string string) (dists : list Distribution) :
  ∃ st, collect_catalog w exclude out dists = Some st ∧ run_inv exclude out st.
Proof.
  apply dist_loop_spec. split; cbn [out_dir results warnings all_copied map concat].
  - done.
  - constructor.
  - by intros n ?%elem_of_nil.
  - by intros r n ?%elem_of_nil.
  - by intros r ?%elem_of_nil.
  - by intros wn ?%elem_of_nil.
Qed.

Lemma try_copy_python_license_spec (w : World) (out : gmap string string) :
  ∃ py out',
    _try_copy_python_license w out = Some (py, out')
    ∧ out ⊆ out'
    ∧ ∀ n, py = Some (Copied n) → out !! n = None ∧ is_Some (out' !! n)
           ∧ name_form "Python" n.
Proof.
  unfold _try_copy_python_license. destruct (List.find _ _) as [c|].
  - destruct (copy_with_unique_name_spec w c out "Python") as (r & out' & -> & Hsub & Hr).
    cbn [mbind option_bind]. exists (Some r), out'. split_and!; [done..|].
    intros n [= ->]. destruct (Hr n eq_refl) as [Hspec Hn].
    pose proof Hspec as (_ & Hfree & _).
    split_and!; [done|by eexists|by eapply unique_name_form].
  - exists None, out. split_and!; [done..|]. by intros n [=].
Qed.

Example run_two_licenses :
  collect_licenses w_all ∅ ∅ [dist_two_licenses]
  = Some (Returned (run_two_results, []), run_two_out).
Proof. by vm_compute. Qed.

(** ** Collector/Copier: distributions passed over *)

Lemma fold_dist_step_filter (w : World) (exclude : gset string)
    (ds : list Distribution) (acc : option Collected) :
  fold_left (dist_step w exclude) ds acc =
  fold_left (dist_step w exclude) (filter (λ d, skipped exclude d = false) ds) acc.
Proof.
  revert acc. induction ds as [|d ds IH]; intros acc; [done|].
  rewrite filter_cons. cbn [fold_left]. destruct (skipped exclude d) eqn:Hskip.
  - rewrite decide_False by done. rewrite dist_step_skipped by done. apply IH.
  - rewrite decide_True by done. cbn [fold_left]. apply IH.
Qed.

Lemma collect_catalog_filter (w : World) (exclude : gset string)
    (out : gmap string string) (ds : list Distribution) :
  collect_catalog w exclude out ds =
  fold_left (dist_step w exclude)
    (sorted sort_key (filter (λ d, skipped exclude d = false) ds))
    (Some {| out_dir := out; results := []; warnings := [] |}).
Proof.
  unfold collect_catalog. by rewrite fold_dist_step_filter, filter_sorted.
Qed.

Lemma skipped_leaves_no_trace (w : World) (exclude : gset string) (d : Distribution) :
  skipped exclude d = true → leaves_no_trace w exclude d.
Proof.
  intros Hskip. split; [intros acc; by apply dist_step_skipped|].
  intros out before after. unfold collect_licenses.
  rewrite !collect_catalog_filter, !filter_app, filter_cons.
  by rewrite decide_False by congruence.
Qed.

Lemma is_excluded_true (exclude : gset string) (dname : string) :
  is_excluded exclude dname = true ↔
  lower (_norm_name dname) ∈ exclude ∨ lower dname ∈ exclude.
Proof.
  unfold is_excluded. by rewrite orb_true_iff, !bool_decide_eq_true.
Qed.

Lemma excluded_nothing_about (w : World) (exclude : gset string)
    (out : gmap string string) (dists : list Distribution) (st : Collected)
    (dname : string) :
  is_excluded exclude dname = true →
  collect_catalog w exclude out dists = Some st →
  nothing_about st dname.
Proof.
  intros Hex Hst.
  destruct (collect_catalog_spec w exclude out dists) as (st' & Hst' & Hinv).
  assert (st' = st) as -> by congruence.
  destruct Hinv as [_ _ _ _ Hrec Hwarn]. split.
  - intros r [_ Hr]%Hrec Heq. congruence.
  - intros wn (n & Hn & _ & Hnex)%Hwarn Heq. congruence.
Qed.

Lemma lower_char_idem (c : ascii) : lower_char (lower_char c) = lower_char c.
Proof. destruct c as [[] [] [] [] [] [] [] []]; reflexivity. Qed.

Lemma lower_idem (s : string) : lower (lower s) = lower s.
Proof.
  induction s as [|c s IH]; [done|]. cbn [lower]. by rewrite lower_char_idem, IH.
Qed.

Lemma main_exclude_lower (args_exclude : list string) (x : string) :
  x ∈ main_exclude args_exclude → lower x = x.
Proof.
  unfold main_exclude. rewrite elem_of_list_to_set.
  intros (a & -> & _)%list_elem_of_fmap. apply lower_idem.
Qed.

Example exclude_pip_run :
  collect_licenses w_all ∅ (main_exclude ["pip"]) [dist_pip]
  = Some (Returned ([python_entry w_all "Python-LICENSE.txt"], []),
          {["Python-LICENSE.txt" := "/py/LICENSE.txt"]}).
Proof. by vm_compute. Qed.

(** C9, amended: a distribution whose lowercased normalized name or raw
    lowercase name is in the exclude set leaves no trace: no record of the
    catalog loop and no warning is about it, and the run is the run of the
    catalog without it.  The collector looks the normalized name up in
    lowercase; in the exclude set that [main] builds every element is
    lowercase, so there the normalized name itself is in it only if its
    lowercase form is.  With [--exclude pip] a distribution named [pip]
    leaves no trace. *)
Theorem excluded_distribution_leaves_no_trace (w : World) (d : Distribution)
    (dname : string) :
  dist_name_of d = Some dname →
  (∀ exclude : gset string,
     lower (_norm_name dname) ∈ exclude ∨ lower dname ∈ exclude →
     leaves_no_trace w exclude d
     ∧ ∀ out dists st, collect_catalog w exclude out dists = Some st →
         nothing_about st dname)
  ∧ (∀ args_exclude : list string,
       let exclude := main_exclude args_exclude in
       _norm_name dname ∈ exclude ∨ lower dname ∈ exclude →
       leaves_no_trace w exclude d
       ∧ ∀ out dists st, collect_catalog w exclude out dists = Some st →
           nothing_about st dname)
  ∧ (dname = "pip" →
     leaves_no_trace w (main_exclude ["pip"]) d
     ∧ ∀ out dists st, collect_catalog w (main_exclude ["pip"]) out dists = Some st →
         nothing_about st "pip").
Proof.
  intros Hname.
  assert (∀ exclude : gset string,
            lower (_norm_name dname) ∈ exclude ∨ lower dname ∈ exclude →
            leaves_no_trace w exclude d
            ∧ ∀ out dists st, collect_catalog w exclude out dists = Some st →
                nothing_about st dname) as Hgen.
  { intros exclude Hin%is_excluded_true. split.
    - apply skipped_leaves_no_trace. unfold skipped. rewrite Hname, Hin.
      apply orb_true_r.
    - intros out dists st. by apply excluded_nothing_about. }
  split_and!; [exact Hgen| |].
  - intros args_exclude exclude [Hin|Hin]; apply Hgen; [left|by right].
    by rewrite (main_exclude_lower _ _ Hin).
  - intros ->. apply Hgen. left. vm_compute. set_solver.
Qed.

Lemma excluded_distribution_leaves_no_trace_witness :
  leaves_no_trace w_all (main_exclude ["pip"]) dist_pip
  ∧ ∀ out dists st,
      collect_catalog w_all (main_exclude ["pip"]) out dists = Some st →
      nothing_about st "pip".
Proof.
  apply (excluded_distribution_leaves_no_trace w_all dist_pip "pip"); reflexivity.
Defined.

Lemma or_opt_falsy (a b : option string) :
  truthy a = false → truthy b = false → truthy (or_opt a b) = false.
Proof. destruct a as [[|??]|]; done. Qed.

Example nameless_run :
  collect_licenses w_all ∅ ∅ [dist_nameless]
  = collect_licenses w_all ∅ ∅ [].
Proof. by vm_compute. Qed.

(** C10: a distribution whose metadata [Name] and fallback name are both
    missing or empty is passed over in silence, whatever the exclude set is:
    its turn in the loop changes nothing, the run is the run of the catalog
    without it, and no record or warning bears an empty name. *)
Theorem nameless_distribution_silently_skipped (w : World) (exclude : gset string)
    (d : Distribution) :
  truthy (Name (metadata d)) = false →
  truthy (name d) = false →
  leaves_no_trace w exclude d
  ∧ ∀ out dists st, collect_catalog w exclude out dists = Some st →
      nothing_about st "".
Proof.
  intros HName Hname. split.
  - apply skipped_leaves_no_trace. unfold skipped, dist_name_of.
    pose proof (or_opt_falsy _ _ HName Hname) as Hf.
    destruct (or_opt _ _) as [n|]; [|done].
    cbn [truthy] in Hf. apply negb_false_iff in Hf. by rewrite Hf.
  - intros out dists st Hst.
    destruct (collect_catalog_spec w exclude out dists) as (st' & Hst' & Hinv).
    assert (st' = st) as -> by congruence.
    destruct Hinv as [_ _ _ _ Hrec Hwarn]. split.
    + intros r [Hr _]%Hrec. done.
    + intros wn (n & Hn & Hne & _)%Hwarn Heq. congruence.
Qed.

Lemma nameless_distribution_silently_skipped_witness :
  leaves_no_trace w_all ∅ dist_nameless
  ∧ ∀ out dists st, collect_catalog w_all ∅ out dists = Some st →
      nothing_about st "".
Proof.
  apply (nameless_distribution_silently_skipped w_all ∅ dist_nameless); reflexivity.
Defined.

(** * Further properties *)

(** ** Name Normalizer *)

Lemma safe_char_not_space (c : ascii) : is_safe_char c = true → isspace c = false.
Proof. destruct c as [[] [] [] [] [] [] [] []]; by vm_compute. Qed.

Lemma isspace_lower_char (c : ascii) : isspace (lower_char c) = isspace c.
Proof. destruct c as [[] [] [] [] [] [] [] []]; reflexivity. Qed.

Lemma is_safe_lower_char (c : ascii) : is_safe_char (lower_char c) = is_safe_char c.
Proof. destruct c as [[] [] [] [] [] [] [] []]; reflexivity. Qed.

Lemma all_chars_impl (P Q : ascii → bool) (s : string) :
  (∀ c, P c = true → Q c = true) → all_chars P s = true → all_chars Q s = true.
Proof.
  intros HPQ. induction s as [|c s IH]; [done|]. cbn [all_chars].
  intros [Hc Hs]%andb_true_iff. by rewrite (HPQ c Hc), IH.
Qed.

Lemma all_chars_has_char (P : ascii → bool) (c : ascii) (s : string) :
  all_chars P s = true → P c = false → has_char c s = false.
Proof.
  intros Hall Hc. induction s as [|d s IH]; [done|].
  cbn [all_chars has_char] in *. apply andb_true_iff in Hall as [Hd Hs].
  rewrite (IH Hs), orb_false_r. apply Ascii.eqb_neq. intros ->. congruence.
Qed.

Lemma sub_unsafe_safe (s : string) : all_chars is_safe_char (sub_unsafe s) = true.
Proof.
  induction s as [|c s IH]; [done|]. cbn [sub_unsafe all_chars]. rewrite IH.
  by destruct (is_safe_char c) eqn:Hc; [rewrite Hc|].
Qed.

Lemma sub_unsafe_id (s : string) :
  all_chars is_safe_char s = true → sub_unsafe s = s.
Proof.
  induction s as [|c s IH]; [done|]. cbn [all_chars sub_unsafe].
  intros [-> Hs]%andb_true_iff. by rewrite IH.
Qed.

Lemma lstrip_no_space (s : string) :
  all_chars (λ c, negb (isspace c)) s = true → lstrip s = s.
Proof.
  destruct s as [|c s]; [done|]. cbn [all_chars lstrip].
  intros [Hc _]%andb_true_iff. by apply negb_true_iff in Hc as ->.
Qed.

Lemma rstrip_no_space (s : string) :
  all_chars (λ c, negb (isspace c)) s = true → rstrip s = s.
Proof.
  induction s as [|c s IH]; [done|]. cbn [all_chars rstrip].
  intros [Hc Hs]%andb_true_iff. apply negb_true_iff in Hc as ->. by rewrite IH.
Qed.

Lemma sub_whitespace_go_no_space (in_run : bool) (s : string) :
  all_chars (λ c, negb (isspace c)) s = true → sub_whitespace_go in_run s = s.
Proof.
  revert in_run. induction s as [|c s IH]; intros in_run; [done|].
  cbn [all_chars sub_whitespace_go].
  intros [Hc Hs]%andb_true_iff. apply negb_true_iff in Hc as ->. by rewrite IH.
Qed.

Lemma norm_name_all_safe (name : string) :
  all_chars is_safe_char (_norm_name name) = true.
Proof. apply sub_unsafe_safe. Qed.

(** X1: the normalized name is safe as a piece of a file name: all of its
    characters are letters, digits or one of [._+-], so it holds no path
    separator and no whitespace. *)
Theorem norm_name_file_name_safe (name : string) :
  all_chars is_safe_char (_norm_name name) = true
  ∧ has_char "/" (_norm_name name) = false
  ∧ has_char "\" (_norm_name name) = false
  ∧ all_chars (λ c, negb (isspace c)) (_norm_name name) = true.
Proof.
  pose proof (norm_name_all_safe name) as Hsafe. split_and!; [done| | |].
  - by apply (all_chars_has_char is_safe_char).
  - by apply (all_chars_has_char is_safe_char).
  - apply (all_chars_impl is_safe_char); [|done].
    intros c Hc. by rewrite (safe_char_not_space c Hc).
Qed.

Lemma norm_name_of_safe (s : string) :
  all_chars is_safe_char s = true → _norm_name s = s.
Proof.
  intros Hsafe.
  assert (all_chars (λ c, negb (isspace c)) s = true) as Hns.
  { apply (all_chars_impl is_safe_char); [|done].
    intros c Hc. by rewrite (safe_char_not_space c Hc). }
  unfold _norm_name, strip, sub_whitespace.
  rewrite (lstrip_no_space s Hns), (rstrip_no_space s Hns).
  rewrite (sub_whitespace_go_no_space false s Hns). by apply sub_unsafe_id.
Qed.

(** X2: normalizing is idempotent: a normalized name is its own normal form,
    so a prefix built from it can be normalized again without change. *)
Theorem norm_name_idempotent (name : string) :
  _norm_name (_norm_name name) = _norm_name name.
Proof. apply norm_name_of_safe, norm_name_all_safe. Qed.

Lemma lstrip_lower (s : string) : lstrip (lower s) = lower (lstrip s).
Proof.
  induction s as [|c s IH]; [done|]. cbn [lower lstrip].
  rewrite isspace_lower_char. by destruct (isspace c).
Qed.

Lemma is_empty_lower (s : string) : is_empty (lower s) = is_empty s.
Proof. by destruct s. Qed.

Lemma rstrip_lower (s : string) : rstrip (lower s) = lower (rstrip s).
Proof.
  induction s as [|c s IH]; [done|]. cbn [lower rstrip].
  rewrite isspace_lower_char, IH, is_empty_lower.
  by destruct (isspace c && is_empty (rstrip s)).
Qed.

Lemma sub_whitespace_go_lower (in_run : bool) (s : string) :
  sub_whitespace_go in_run (lower s) = lower (sub_whitespace_go in_run s).
Proof.
  revert in_run. induction s as [|c s IH]; intros in_run; [done|].
  cbn [lower sub_whitespace_go]. rewrite isspace_lower_char.
  destruct (isspace c); [destruct in_run|]; cbn [lower]; by rewrite IH.
Qed.

Lemma sub_unsafe_lower (s : string) : sub_unsafe (lower s) = lower (sub_unsafe s).
Proof.
  induction s as [|c s IH]; [done|]. cbn [lower sub_unsafe].
  rewrite is_safe_lower_char, IH. by destruct (is_safe_char c).
Qed.

Lemma norm_name_lower (name : string) :
  _norm_name (lower name) = lower (_norm_name name).
Proof.
  unfold _norm_name, strip, sub_whitespace.
  by rewrite lstrip_lower, rstrip_lower, sub_whitespace_go_lower, sub_unsafe_lower.
Qed.

(** X3: for names of ASCII characters normalizing and lowercasing commute, so
    two such names that differ only in letter case have normalized names that
    differ only in letter case. *)
Theorem norm_name_respects_case (a b : string) :
  all_chars is_ascii a = true → all_chars is_ascii b = true →
  lower a = lower b → lower (_norm_name a) = lower (_norm_name b).
Proof. intros _ _ H. by rewrite <- !norm_name_lower, H. Qed.

Lemma norm_name_respects_case_witness :
  lower (_norm_name "Foo Bar") = lower (_norm_name "FOO bar").
Proof. apply (norm_name_respects_case "Foo Bar" "FOO bar"); reflexivity. Defined.

Lemma lstrip_empty (s : string) : lstrip s = "" ↔ all_chars isspace s = true.
Proof.
  induction s as [|c s IH]; [done|]. cbn [lstrip all_chars].
  destruct (isspace c); [exact IH|]. split; discriminate.
Qed.

Lemma rstrip_empty (s : string) : rstrip s = "" ↔ all_chars isspace s = true.
Proof.
  induction s as [|c s IH]; [done|]. cbn [rstrip all_chars].
  destruct (isspace c); cbn [andb]; [|split; discriminate].
  rewrite <- IH. destruct (rstrip s); cbn [is_empty]; split; done.
Qed.

Lemma lstrip_head (s : string) :
  lstrip s = "" ∨ ∃ c r, lstrip s = String c r ∧ isspace c = false.
Proof.
  induction s as [|c s IH]; [by left|]. cbn [lstrip].
  destruct (isspace c) eqn:Hc; [exact IH|]. right. by exists c, s.
Qed.

Lemma strip_empty (s : string) : strip s = "" ↔ all_chars isspace s = true.
Proof.
  unfold strip. rewrite rstrip_empty, <- (lstrip_empty s).
  destruct (lstrip_head s) as [->|(c & r & -> & Hc)]; [by split|].
  cbn [all_chars]. rewrite Hc. split; discriminate.
Qed.

Lemma sub_unsafe_empty (s : string) : sub_unsafe s = "" ↔ s = "".
Proof. by destruct s. Qed.

Lemma sub_whitespace_empty (s : string) : sub_whitespace s = "" ↔ s = "".
Proof.
  destruct s as [|c r]; [done|]. unfold sub_whitespace. cbn [sub_whitespace_go].
  by destruct (isspace c).
Qed.

(** X4: the normalized name is empty exactly for a name made of whitespace
    only (the empty name included); any other name keeps at least one
    character. *)
Theorem norm_name_empty_iff (name : string) :
  _norm_name name = "" ↔ all_chars isspace name = true.
Proof.
  unfold _norm_name. by rewrite sub_unsafe_empty, sub_whitespace_empty, strip_empty.
Qed.

Example norm_name_spaced : _norm_name name_spaced = "My_Package_1".
Proof. reflexivity. Qed.

(** ** License Inference Engine *)

Lemma upper_char_of_lower (c : ascii) :
  between 97 122 (ord (lower_char c)) = true →
  upper_char c = String (ascii_of_N (ord (lower_char c) - 32)) "".
Proof. destruct c as [[] [] [] [] [] [] [] []]; by vm_compute. Qed.

Lemma upper_of_lower_unknown (s : string) :
  lower s = "unknown" → upper s = "UNKNOWN".
Proof.
  destruct s as [|c1 [|c2 [|c3 [|c4 [|c5 [|c6 [|c7 [|c8 s]]]]]]]]; try done.
  cbn [lower upper]. intros [= H1 H2 H3 H4 H5 H6 H7].
  rewrite !upper_char_of_lower by (by rewrite ?H1, ?H2, ?H3, ?H4, ?H5, ?H6, ?H7).
  by rewrite H1, H2, H3, H4, H5, H6, H7.
Qed.

(** X5: a trimmed License field of ASCII characters that is the placeholder
    [UNKNOWN] in any letter case is treated as absent: the label is the
    classifier guess, or [UNKNOWN] when there is none. *)
Theorem infer_ignores_unknown_placeholder (dist : Distribution) :
  all_chars is_ascii (lic_field (metadata dist)) = true →
  lower (lic_field (metadata dist)) = "unknown" →
  _infer_license_from_metadata dist =
  or_else (classifier_guess (metadata dist)) "UNKNOWN".
Proof.
  intros _ Hlow%upper_of_lower_unknown. unfold _infer_license_from_metadata.
  rewrite Hlow. cbn [String.eqb]. destruct (_looks_like_full_text _); [done|].
  by rewrite andb_false_r.
Qed.

Lemma infer_ignores_unknown_placeholder_witness :
  _infer_license_from_metadata dist_placeholder = "BSD".
Proof. apply (infer_ignores_unknown_placeholder dist_placeholder); reflexivity. Defined.

(** X6: when the trimmed License field is usable it is the label, whatever
    the classifiers are, and such a label is not empty, at most 120
    characters long, on one line and free of the five keywords. *)
Theorem infer_usable_field_is_label (dist : Distribution) :
  usable_license_field (metadata dist) = true →
  _infer_license_from_metadata dist = lic_field (metadata dist)
  ∧ lic_field (metadata dist) ≠ ""
  ∧ (String.length (lic_field (metadata dist)) ≤ 120)%nat
  ∧ has_linebreak (lic_field (metadata dist)) = false
  ∧ ∀ k, k ∈ keywords → contains k (lower (lic_field (metadata dist))) = false.
Proof.
  unfold usable_license_field, _infer_license_from_metadata.
  intros [[Hne Hunk]%andb_true_iff Hlooks%negb_true_iff]%andb_true_iff.
  rewrite Hlooks, Hne, Hunk. cbn [andb]. split_and!; [done| | | |].
  - apply is_empty_false. by apply negb_true_iff.
  - unfold _looks_like_full_text in Hlooks.
    destruct (is_empty _); [done|]. destruct (_ || _); [done|].
    destruct (120 <? _)%nat eqn:Hlen; [done|]. by apply Nat.ltb_ge in Hlen.
  - by apply looks_like_full_text_linebreak.
  - intros k Hk. unfold _looks_like_full_text in Hlooks.
    destruct (is_empty _); [done|]. destruct (_ || _); [done|].
    destruct (120 <? _)%nat; [done|].
    apply not_true_is_false. intros Hc.
    assert (existsb (λ k0, contains k0 (lower (lic_field (metadata dist)))) keywords = true)
      as Hex; [|congruence].
    apply existsb_exists. exists k. split; [by apply list_elem_of_In|done].
Qed.

Lemma infer_usable_field_is_label_witness :
  _infer_license_from_metadata dist_usable = "Apache-2.0".
Proof. apply (infer_usable_field_is_label dist_usable). reflexivity. Defined.

Lemma uniq_from_app_dup {A} (key : A → string) (a b : list A) (y : A)
    (seen : gset string) :
  key y ∈ seen ∨ key y ∈ map key a →
  uniq_from key seen (a ++ y :: b) = uniq_from key seen (a ++ b).
Proof.
  revert seen. induction a as [|x a IH]; intros seen Hy.
  { cbn [app uniq_from]. rewrite decide_True; [done|].
    destruct Hy as [Hy|Hy]; [done|]. by apply elem_of_nil in Hy. }
  cbn [app uniq_from map] in *.
  destruct (decide (key x ∈ seen)) as [Hx|Hx].
  - apply IH. destruct Hy as [Hy|[->|Hy]%elem_of_cons]; auto.
  - f_equal. apply IH. destruct Hy as [Hy|[->|Hy]%elem_of_cons].
    + left. apply elem_of_union. by right.
    + left. apply elem_of_union. left. by apply elem_of_singleton.
    + by right.
Qed.

Lemma first_seen_app_dup (a b : list string) (y : string) :
  y ∈ a → first_seen (a ++ y :: b) = first_seen (a ++ b).
Proof.
  intros Hy. rewrite <- !uniq_from_first_seen. apply uniq_from_app_dup.
  right. by rewrite map_id.
Qed.

Lemma infer_ext (d1 d2 : Distribution) :
  License (metadata d1) = License (metadata d2) →
  classifier_guess (metadata d1) = classifier_guess (metadata d2) →
  _infer_license_from_metadata d1 = _infer_license_from_metadata d2.
Proof.
  intros Hl Hg. unfold _infer_license_from_metadata, lic_field. by rewrite Hl, Hg.
Qed.

Lemma pipeline_classifier_guess_skip (before after : list string) (c : string) :
  startswith "License ::" (strip c) = false →
  pipeline_classifier_guess (before ++ c :: after)
  = pipeline_classifier_guess (before ++ after).
Proof.
  intros Hc. unfold pipeline_classifier_guess.
  rewrite !map_app, !filter_app. cbn [map].
  by rewrite filter_cons, decide_False by congruence.
Qed.

Lemma pipeline_classifier_guess_dup (before after : list string) (c : string) :
  c ∈ before →
  pipeline_classifier_guess (before ++ c :: after)
  = pipeline_classifier_guess (before ++ after).
Proof.
  intros Hin.
  destruct (startswith "License ::" (strip c)) eqn:Hc;
    [|by apply pipeline_classifier_guess_skip].
  unfold pipeline_classifier_guess.
  rewrite !map_app, !filter_app. cbn [map].
  rewrite filter_cons, decide_True by done. rewrite !map_app. cbn [map].
  rewrite first_seen_app_dup; [done|].
  apply list_elem_of_fmap. exists (strip c). split; [done|].
  apply list_elem_of_filter. split; [done|].
  apply list_elem_of_fmap. by exists c.
Qed.

(** X7: a Classifier value that repeats an earlier one changes nothing: the
    label is the label of the metadata without the repetition. *)
Theorem infer_ignores_repeated_classifier (d1 d2 : Distribution)
    (before after : list string) (c : string) :
  License (metadata d1) = License (metadata d2) →
  Classifier (metadata d1) = before ++ c :: after →
  Classifier (metadata d2) = before ++ after →
  c ∈ before →
  _infer_license_from_metadata d1 = _infer_license_from_metadata d2.
Proof.
  intros Hl H1 H2 Hin. apply infer_ext; [done|].
  rewrite !classifier_guess_pipeline, H1, H2.
  by apply pipeline_classifier_guess_dup.
Qed.

Lemma infer_ignores_repeated_classifier_witness :
  _infer_license_from_metadata
    (dist_of ["License :: OSI Approved :: MIT License"; "Topic :: Utilities";
              "License :: OSI Approved :: MIT License"] None)
  = _infer_license_from_metadata
      (dist_of ["License :: OSI Approved :: MIT License"; "Topic :: Utilities"] None).
Proof.
  apply (infer_ignores_repeated_classifier _ _
           ["License :: OSI Approved :: MIT License"; "Topic :: Utilities"] []
           "License :: OSI Approved :: MIT License"); [reflexivity..|].
  apply elem_of_cons. by left.
Defined.

(** X8: a Classifier value whose trimmed text does not begin with
    [License ::] plays no part in the label, wherever it stands. *)
Theorem infer_ignores_other_classifiers (d1 d2 : Distribution)
    (before after : list string) (c : string) :
  License (metadata d1) = License (metadata d2) →
  Classifier (metadata d1) = before ++ c :: after →
  Classifier (metadata d2) = before ++ after →
  startswith "License ::" (strip c) = false →
  _infer_license_from_metadata d1 = _infer_license_from_metadata d2.
Proof.
  intros Hl H1 H2 Hc. apply infer_ext; [done|].
  rewrite !classifier_guess_pipeline, H1, H2.
  by apply pipeline_classifier_guess_skip.
Qed.

Lemma infer_ignores_other_classifiers_witness :
  _infer_license_from_metadata
    (dist_of ["Topic :: Utilities"; "License :: OSI Approved :: MIT License"] None)
  = _infer_license_from_metadata dist_mit.
Proof.
  apply (infer_ignores_other_classifiers _ _
           [] ["License :: OSI Approved :: MIT License"] "Topic :: Utilities");
    reflexivity.
Defined.

(** ** License File Locator *)

Lemma fold_left_ext_str {A B} (f g : A → B → A) (l : list B) (a : A) :
  (∀ acc x, f acc x = g acc x) → fold_left f l a = fold_left g l a.
Proof.
  intros Hfg. revert a. induction l as [|x l IH]; intros a; [done|].
  cbn [fold_left]. by rewrite Hfg, IH.
Qed.

Lemma manifest_step_keeps (w : World) (dist : Distribution)
    (paths : list string) (f : string) :
  manifest_step w dist paths f =
  if manifest_keeps w dist f then paths ++ [locate_file w dist f] else paths.
Proof.
  unfold manifest_step, manifest_keeps, add_if_file.
  destruct (is_file w (locate_file w dist f)); cbn [andb];
    destruct (LICENSE_BASENAME_RE _); cbn [orb];
    destruct (contains "/.dist-info/" _ || endswith ".dist-info" _); cbn [andb];
    try done; by destruct (contains "/.dist-info/licenses/" _).
Qed.

Lemma primary_tier_filter (w : World) (dist : Distribution) :
  primary_tier w dist =
  map (locate_file w dist)
    (filter (λ f, manifest_keeps w dist f = true) (default [] (files dist))).
Proof.
  unfold primary_tier.
  rewrite (fold_left_ext_str _
             (λ acc f, if manifest_keeps w dist f
                       then acc ++ [locate_file w dist f] else acc))
    by apply manifest_step_keeps.
  by rewrite fold_left_append_if.
Qed.

Lemma walk_step_keeps (w : World) (dir : string) (paths : list string) (rel : string) :
  walk_step w dir paths rel =
  if walk_keeps w dir rel then paths ++ [path_join dir rel] else paths.
Proof.
  unfold walk_step, walk_keeps.
  destruct (is_file w (path_join dir rel)); cbn [andb negb]; [|done].
  destruct (LICENSE_BASENAME_RE _); cbn [orb]; [done|].
  by destruct (startswith _ _).
Qed.

Lemma fallback_tier_filter (w : World) (dir : string) :
  fallback_tier w dir =
  map (path_join dir) (filter (λ rel, walk_keeps w dir rel = true) (rglob w dir)).
Proof.
  unfold fallback_tier.
  rewrite (fold_left_ext_str _
             (λ acc rel, if walk_keeps w dir rel
                         then acc ++ [path_join dir rel] else acc))
    by apply walk_step_keeps.
  by rewrite fold_left_append_if.
Qed.

(** X9: the first tier keeps, in the order of the manifest, exactly the
    entries that resolve to a regular file and either have a license basename
    or hold both [/.dist-info/] (or end in [.dist-info]) and
    [/.dist-info/licenses/]; in particular an entry with a license basename
    that is a regular file is kept wherever it sits in the tree. *)
Theorem primary_tier_keeps_exactly (w : World) (dist : Distribution) :
  primary_tier w dist =
    map (locate_file w dist)
      (filter (λ f, manifest_keeps w dist f = true) (default [] (files dist)))
  ∧ ∀ (manifest : list string) (f : string),
      files dist = Some manifest → f ∈ manifest →
      LICENSE_BASENAME_RE (path_name (replace "\" "/" f)) = true →
      is_file w (locate_file w dist f) = true →
      locate_file w dist f ∈ primary_tier w dist.
Proof.
  split; [apply primary_tier_filter|].
  intros manifest f Hfiles Hf Hre Hfile. rewrite primary_tier_filter, Hfiles.
  apply list_elem_of_fmap. exists f. split; [done|].
  apply list_elem_of_filter. split; [|done].
  unfold manifest_keeps. by rewrite Hfile, Hre.
Qed.

Lemma primary_tier_keeps_exactly_witness :
  locate_file w_all dist_wheel "foo-1.0.dist-info/LICENSE"
  ∈ primary_tier w_all dist_wheel.
Proof.
  apply (proj2 (primary_tier_keeps_exactly w_all dist_wheel)
           ["foo-1.0.dist-info/LICENSE"; "foo-1.0.dist-info/licenses/AUTHORS.md"]);
    [reflexivity| |reflexivity..].
  apply elem_of_cons. by left.
Defined.

(** X10: the second tier keeps, in the order of the walk, exactly the regular
    files below the metadata directory that have a license basename or whose
    path relative to it begins, without regard to case, with [licenses/]. *)
Theorem fallback_tier_keeps_exactly (w : World) (dir : string) :
  fallback_tier w dir =
    map (path_join dir) (filter (λ rel, walk_keeps w dir rel = true) (rglob w dir))
  ∧ ∀ rel : string,
      rel ∈ rglob w dir →
      is_file w (path_join dir rel) = true →
      startswith "licenses/" (lower (replace "\" "/" rel)) = true →
      path_join dir rel ∈ fallback_tier w dir.
Proof.
  split; [apply fallback_tier_filter|].
  intros rel Hrel Hfile Hlic. rewrite fallback_tier_filter.
  apply list_elem_of_fmap. exists rel. split; [done|].
  apply list_elem_of_filter. split; [|done].
  unfold walk_keeps. by rewrite Hfile, Hlic, orb_true_r.
Qed.

Lemma fallback_tier_keeps_exactly_witness :
  path_join "/sp/foo-1.0.dist-info" "licenses/AUTHORS.md"
  ∈ fallback_tier w_all "/sp/foo-1.0.dist-info".
Proof.
  apply (proj2 (fallback_tier_keeps_exactly w_all "/sp/foo-1.0.dist-info"));
    [|reflexivity..].
  apply elem_of_cons. right. apply elem_of_cons. right. apply elem_of_cons. by left.
Defined.

Lemma select_is_uniq_of_candidates (w : World) (dist : Distribution)
    (dist_info_dir : option string) :
  _select_license_files_from_dist w dist dist_info_dir =
  uniq_from (resolved_key w) ∅ (candidate_paths w dist dist_info_dir).
Proof.
  unfold _select_license_files_from_dist, candidate_paths.
  rewrite uniq_loop_from. destruct (primary_tier w dist); [|done].
  destruct dist_info_dir as [dir|]; [|done]. by destruct (is_dir w dir).
Qed.

Lemma candidate_paths_is_file (w : World) (dist : Distribution)
    (dist_info_dir : option string) (p : string) :
  p ∈ candidate_paths w dist dist_info_dir → is_file w p = true.
Proof.
  assert (∀ q, q ∈ primary_tier w dist → is_file w q = true) as Hprim.
  { intros q. rewrite primary_tier_filter.
    intros (f & -> & [Hk _]%list_elem_of_filter)%list_elem_of_fmap.
    unfold manifest_keeps in Hk. by apply andb_true_iff in Hk as [-> _]. }
  assert (∀ dir q, q ∈ fallback_tier w dir → is_file w q = true) as Hfall.
  { intros dir q. rewrite fallback_tier_filter.
    intros (rel & -> & [Hk _]%list_elem_of_filter)%list_elem_of_fmap.
    unfold walk_keeps in Hk. by apply andb_true_iff in Hk as [-> _]. }
  unfold candidate_paths. destruct (primary_tier w dist) as [|q qs] eqn:Hp.
  - destruct dist_info_dir as [dir|]; [|by intros ?%elem_of_nil].
    destruct (is_dir w dir); [apply Hfall|by intros ?%elem_of_nil].
  - destruct dist_info_dir; apply Hprim.
Qed.

(** X11: whatever the Locator returns is a regular file on disk. *)
Theorem select_only_regular_files (w : World) (dist : Distribution)
    (dist_info_dir : option string) (p : string) :
  p ∈ _select_license_files_from_dist w dist dist_info_dir →
  is_file w p = true.
Proof.
  rewrite select_is_uniq_of_candidates. intros [Hp _]%uniq_from_elem.
  by eapply candidate_paths_is_file.
Qed.

Lemma select_only_regular_files_witness :
  is_file w_one_file "/sp/foo/COPYING" = true.
Proof.
  apply (select_only_regular_files w_one_file dist_twice_listed None).
  vm_compute. apply elem_of_cons. by left.
Defined.





Example select_drops_same_key :
  candidate_paths w_all dist_twice_listed None
    = ["/sp/foo/LICENSE"; "/sp/FOO/LICENSE"; "/sp/foo/COPYING"]
  ∧ _select_license_files_from_dist w_all dist_twice_listed None
    = ["/sp/foo/LICENSE"; "/sp/foo/COPYING"].
Proof. by vm_compute. Qed.


Lemma prefix_app_str (p r : string) : String.prefix p (p +:+ r) = true.
Proof.
  induction p as [|c p IH]; [by destruct r|].
  rewrite app_cons_str. cbn [String.prefix]. by destruct (ascii_dec c c).
Qed.

Lemma lower_app (a b : string) : lower (a +:+ b) = lower a +:+ lower b.
Proof.
  induction a as [|c a IH]; [done|].
  rewrite app_cons_str. cbn [lower]. by rewrite IH, app_cons_str.
Qed.

Lemma length_lower (s : string) : String.length (lower s) = String.length s.
Proof. induction s as [|c s IH]; [done|]. cbn. by rewrite IH. Qed.

Lemma substring_zero (n : nat) (s : string) : String.substring n 0 s = "".
Proof. revert n. induction s as [|c s IH]; intros [|n]; cbn; auto. Qed.

Lemma substring_app_drop (a b : string) (m : nat) :
  String.substring (String.length a) m (a +:+ b) = String.substring 0 m b.
Proof. induction a as [|c a IH]; [done|]. rewrite app_cons_str. cbn. apply IH. Qed.

Lemma drop_prefix_app (tok head rest : string) :
  String.length head = String.length tok →
  drop_prefix tok (head +:+ rest) = rest.
Proof.
  intros Hlen. unfold drop_prefix.
  rewrite length_app_str, <- Hlen, substring_app_drop.
  replace (String.length head + String.length rest - String.length head)%nat
    with (String.length rest) by lia.
  apply substring_full.
Qed.

Lemma endswith_char (c : ascii) (s : string) :
  endswith (String c "") s = true → has_char c s = true.
Proof.
  unfold endswith. intros [_ Heq%String.eqb_eq]%andb_true_iff.
  apply (has_char_substring c (String.length s - String.length (String c "")) 
           (String.length (String c "")) s).
  rewrite Heq. cbn [has_char]. by rewrite Ascii.eqb_refl.
Qed.

Lemma tail_matches_separated (sep : ascii) (body : string) :
  is_separator sep = true → body ≠ "" → has_char LF body = false →
  tail_matches (String sep body) = true.
Proof.
  intros Hsep Hne Hlf. unfold tail_matches, chomp.
  assert (endswith nl (String sep body) = false) as ->.
  { apply not_true_is_false. intros He%endswith_char. cbn [has_char] in He.
    rewrite Hlf, orb_false_r in He. apply Ascii.eqb_eq in He. subst sep.
    by vm_compute in Hsep. }
  rewrite Hsep, Hlf. by destruct body.
Qed.

(** X13: the pattern of license basenames takes each of [LICENSE], [COPYING]
    and [NOTICE] in any letter case, alone or followed by one of [._-] and
    any non-empty text on one line. *)
Theorem license_basename_accepts (tok head : string) :
  tok ∈ license_tokens →
  lower head = lower tok →
  LICENSE_BASENAME_RE head = true
  ∧ ∀ (sep : ascii) (body : string),
      is_separator sep = true → body ≠ "" → has_char LF body = false →
      LICENSE_BASENAME_RE (head +:+ String sep body) = true.
Proof.
  intros Htok Hlow.
  assert (String.length head = String.length tok) as Hlen.
  { by rewrite <- (length_lower head), Hlow, length_lower. }
  assert (∀ rest, tail_matches rest = true →
            LICENSE_BASENAME_RE (head +:+ rest) = true) as Hrest.
  { intros rest Hrest. unfold LICENSE_BASENAME_RE. apply existsb_exists.
    exists tok. split; [by apply list_elem_of_In|].
    rewrite (drop_prefix_app tok head rest Hlen), Hrest, andb_true_r.
    unfold startswith. rewrite lower_app, Hlow. apply prefix_app_str. }
  split.
  - rewrite <- (app_nil_r_str head). by apply Hrest.
  - intros sep body Hsep Hne Hlf. by apply Hrest, tail_matches_separated.
Qed.

Lemma license_basename_accepts_witness :
  LICENSE_BASENAME_RE "License" = true
  ∧ LICENSE_BASENAME_RE ("License" +:+ String "_" "BSD_Simple.txt") = true.
Proof.
  destruct (license_basename_accepts "LICENSE" "License") as [Hbare Hsep];
    [apply elem_of_cons; by left|reflexivity|].
  split; [exact Hbare|]. by apply Hsep.
Defined.

Lemma split_slash_nonempty (s : string) : split_slash s ≠ [].
Proof.
  induction s as [|c s IH]; [done|]. cbn [split_slash].
  destruct (split_slash s); [done|]. by destruct (Ascii.eqb c slash).
Qed.

Lemma split_slash_app (a b : string) :
  split_slash (a +:+ String slash b) = split_slash a ++ split_slash b.
Proof.
  induction a as [|c a IH].
  - rewrite app_nil_l_str. cbn [split_slash].
    pose proof (split_slash_nonempty b). destruct (split_slash b); [done|].
    by rewrite Ascii.eqb_refl.
  - rewrite app_cons_str. cbn [split_slash]. rewrite IH.
    pose proof (split_slash_nonempty a). destruct (split_slash a); [done|].
    cbn [app]. by destruct (Ascii.eqb c slash).
Qed.

Lemma split_slash_component (s : string) :
  has_char slash s = false → split_slash s = [s].
Proof.
  induction s as [|c s IH]; [done|]. cbn [has_char split_slash].
  intros [Hc Hs]%orb_false_iff. rewrite (IH Hs).
  rewrite Ascii.eqb_sym in Hc. by rewrite Hc.
Qed.

Lemma split_slash_no_slash (s c : string) :
  c ∈ split_slash s → has_char slash c = false.
Proof.
  revert c. induction s as [|d s IH]; intros c.
  { by intros ->%list_elem_of_singleton. }
  cbn [split_slash]. pose proof (split_slash_nonempty s).
  destruct (split_slash s) as [|h t]; [done|].
  destruct (Ascii.eqb d slash) eqn:Hd.
  - intros [->|Hc]%elem_of_cons; [done|]. by apply IH.
  - intros [->|Hc]%elem_of_cons.
    + cbn [has_char]. rewrite Ascii.eqb_sym, Hd. apply IH. by left.
    + apply IH. by right.
Qed.

Lemma last_elem {A} (l : list A) (d : A) : List.last l d = d ∨ List.last l d ∈ l.
Proof.
  induction l as [|x l IH]; [by left|]. destruct l as [|y l].
  - right. by left.
  - change (List.last (x :: y :: l) d) with (List.last (y :: l) d).
    destruct IH as [IH|IH]; [by left|right; by right].
Qed.

Lemma path_name_no_slash (s : string) : has_char slash (path_name s) = false.
Proof.
  unfold path_name.
  destruct (last_elem (List.filter
              (λ c, negb (is_empty c) && negb (String.eqb c "."))
              (split_slash s)) "") as [->|Hin]; [done|].
  apply list_elem_of_In, filter_In in Hin as [Hin _].
  by apply (split_slash_no_slash s), list_elem_of_In.
Qed.

(** X14: [Path(s).name] holds no path separator, and the name of a file
    joined to a directory is the file's own name when it is a plain
    component (not empty, not [.], without separator). *)
Theorem path_name_of_join (s : string) :
  has_char slash (path_name s) = false
  ∧ ∀ dir base : string,
      base ≠ "" → base ≠ "." → has_char slash base = false →
      path_name (path_join dir base) = base.
Proof.
  split; [apply path_name_no_slash|].
  intros dir base Hne Hdot Hslash. unfold path_name, path_join.
  change ("/" +:+ base) with (String slash base).
  rewrite split_slash_app, List.filter_app, (split_slash_component base Hslash).
  cbn [List.filter].
  apply is_empty_false in Hne as ->. apply String.eqb_neq in Hdot as ->.
  cbn [negb andb]. apply last_last.
Qed.

Lemma path_name_of_join_witness :
  path_name (path_join "/sp/foo-1.0.dist-info" "LICENSE") = "LICENSE".
Proof. by apply (proj2 (path_name_of_join "")). Defined.

(** ** Collector/Copier: more on names and copies *)

Lemma pretty_N_char_digit (x : N) : is_digit (pretty_N_char x) = true.
Proof. unfold pretty_N_char. by repeat case_match. Qed.

Lemma pretty_N_go_digits (x : N) (s : string) :
  all_chars is_digit s = true → all_chars is_digit (pretty_N_go x s) = true.
Proof.
  revert s. induction (N.lt_wf_0 x) as [x _ IH]; intros s Hs.
  destruct (decide (x = 0)%N) as [->|Hx]; [by rewrite pretty_N_go_0|].
  rewrite pretty_N_go_step by lia. apply IH.
  - apply N.div_lt; lia.
  - cbn [all_chars]. by rewrite pretty_N_char_digit, Hs.
Qed.

Lemma pretty_nat_digits (i : nat) : all_chars is_digit (pretty i) = true.
Proof.
  unfold pretty, pretty_nat, pretty, pretty_N.
  destruct (decide (N.of_nat i = 0)%N); [done|]. by apply pretty_N_go_digits.
Qed.

Lemma has_char_substring_false (c : ascii) (n m : nat) (s : string) :
  has_char c s = false → has_char c (String.substring n m s) = false.
Proof.
  intros Hs. apply not_true_is_false. intros H%has_char_substring. congruence.
Qed.

Lemma has_char_split_ext_false (c : ascii) (fname : string) :
  has_char c fname = false →
  has_char c (split_ext fname).1 = false ∧ has_char c (split_ext fname).2 = false.
Proof.
  intros Hf. unfold split_ext. destruct (rfind_dot fname) as [i|]; [|done].
  destruct (_ && _); [|done]. cbn [fst snd].
  split; by apply has_char_substring_false.
Qed.

(** X15: the name given to a copy holds no path separator when the prefix is
    a normalized distribution name and the base is the name of the source
    path: every copy is written in the output directory itself, never below
    or outside of it. *)
Theorem copy_name_has_no_separator (out : gmap string string)
    (src dname fname : string) :
  unique_name out (path_name src) (_norm_name dname) = Some fname →
  has_char slash fname = false.
Proof.
  assert (has_char slash (target_name (_norm_name dname) (path_name src)) = false)
    as Htarget.
  { unfold target_name. rewrite !has_char_app, orb_false_iff. split.
    - apply (all_chars_has_char is_safe_char); [apply norm_name_all_safe|done].
    - apply orb_false_iff. split; [done|]. apply (path_name_no_slash src). }
  unfold unique_name. destruct (exists_in out _); [|by intros [= <-]].
  destruct (has_char_split_ext_false slash _ Htarget) as [Hstem Hsuffix].
  destruct (split_ext _) as [stem suffix]. cbn [fst snd] in *.
  intros (k & _ & -> & _)%first_free_some. unfold candidate.
  rewrite !has_char_app, Hstem, Hsuffix.
  rewrite (all_chars_has_char is_digit slash (pretty (2 + k)%nat));
    [done|apply pretty_nat_digits|done].
Qed.

Lemma copy_name_has_no_separator_witness :
  has_char slash "foo-LICENSE_2" = false.
Proof.
  apply (copy_name_has_no_separator
           {["foo-LICENSE" := "/sp/foo/LICENSE"]} "/sp/foo/vendored/LICENSE" "foo").
  by vm_compute.
Defined.

Lemma copy_loop_accounts (w : World) (dname dver prefix : string) (lfs : list string) :
  ∀ (out out' : gmap string string) (copied copied' : list string)
    (warns warns' : list Warning),
    fold_left (copy_step w dname dver prefix) lfs (Some (out, copied, warns))
      = Some (out', copied', warns') →
    ∃ new extra,
      copied' = copied ++ new ∧ warns' = warns ++ extra
      ∧ (length new + length extra = length lfs)%nat
      ∧ Forall (λ wn, ∃ lf e, lf ∈ lfs ∧ wn = WarnCopyFailed dname dver lf e) extra.
Proof.
  induction lfs as [|lf lfs IH]; intros out out' copied copied' warns warns'.
  { intros [= <- <- <-]. exists [], []. by rewrite !app_nil_r. }
  cbn [fold_left]. unfold copy_step at 2. cbn [mbind option_bind].
  destruct (copy_with_unique_name_spec w lf out prefix) as (r & out1 & -> & _ & _).
  cbn [mbind option_bind]. destruct r as [n|e].
  - intros (new & extra & -> & -> & Hlen & Hextra)%IH.
    exists (n :: new), extra. split_and!.
    + by rewrite <- app_assoc.
    + done.
    + cbn [length]. lia.
    + eapply Forall_impl; [exact Hextra|].
      intros wn (lf' & e & Hlf' & ->). exists lf', e. split; [by right|done].
  - intros (new & extra & -> & -> & Hlen & Hextra)%IH.
    exists new, (WarnCopyFailed dname dver lf e :: extra). split_and!.
    + done.
    + by rewrite <- app_assoc.
    + cbn [length]. lia.
    + constructor; [exists lf, e; split; [by left|done]|].
      eapply Forall_impl; [exact Hextra|].
      intros wn (lf' & e' & Hlf' & ->). exists lf', e'. split; [by right|done].
Qed.





(** ** Collector/Copier: the records and the warnings of a run *)

Lemma fold_dist_step_none (w : World) (exclude : gset string) (ds : list Distribution) :
  fold_left (dist_step w exclude) ds None = None.
Proof. induction ds as [|d ds IH]; [done|]. exact IH. Qed.

Lemma sorted_nil_iff {A} (key : A → string) (l : list A) : sorted key l = [] ↔ l = [].
Proof.
  split; [|by intros ->]. intros H. apply Permutation_nil_r.
  rewrite <- H. symmetry. apply sorted_perm.
Qed.

(** The turn of a distribution that is not passed over. *)
Lemma dist_step_processed (w : World) (exclude : gset string)
    (st st' : Collected) (d : Distribution) :
  skipped exclude d = false →
  dist_step w exclude (Some st) d = Some st' →
  ∃ copied extra,
    fold_left
      (copy_step w (default "" (dist_name_of d)) (dist_version_of d)
         (_norm_name (default "" (dist_name_of d))))
      (_select_license_files_from_dist w d (find_dist_info_dir w d))
      (Some (out_dir st, [], warnings st))
      = Some (out_dir st', copied, warnings st ++ extra)
    ∧ results st' = results st ++
        [{| dist_name := default "" (dist_name_of d);
            dist_version := dist_version_of d;
            inferred_license := _infer_license_from_metadata d;
            copied_files := sorted id copied |}]
    ∧ warnings st' = warnings st ++ extra ++
        match copied with
        | [] => [WarnNoLicenseFile (default "" (dist_name_of d)) (dist_version_of d)]
        | _ => []
        end
    ∧ Forall (λ wn, ∃ lf e, wn = WarnCopyFailed (default "" (dist_name_of d))
                                   (dist_version_of d) lf e) extra.
Proof.
  unfold skipped, dist_step, dist_name_of, dist_version_of.
  cbn [mbind option_bind].
  destruct (or_opt (Name (metadata d)) (name d)) as [dname|]; [|done].
  intros [-> ->]%orb_false_iff. cbn [default].
  destruct (fold_left _ _ _) as [[[out1 copied] warns1]|] eqn:Hfold; [|done].
  cbn [mbind option_bind]. intros [= <-]. cbn [out_dir results warnings].
  destruct (copy_loop_accounts _ _ _ _ _ _ _ _ _ _ _ Hfold)
    as (new & extra & Hnew & -> & _ & Hextra).
  exists copied, extra. split_and!; [done|done| |].
  - rewrite <- app_assoc. by destruct copied; [|rewrite app_nil_r].
  - eapply Forall_impl; [exact Hextra|].
    intros wn (lf & e & _ & ->). by exists lf, e.
Qed.

Lemma dist_loop_heads (w : World) (exclude : gset string) (ds : list Distribution) :
  ∀ st st' : Collected,
    fold_left (dist_step w exclude) ds (Some st) = Some st' →
    map record_head (results st') =
    map record_head (results st)
    ++ map dist_head (filter (λ d, skipped exclude d = false) ds).
Proof.
  induction ds as [|d ds IH]; intros st st'.
  { intros [= <-]. by rewrite app_nil_r. }
  cbn [fold_left]. rewrite filter_cons.
  destruct (skipped exclude d) eqn:Hskip.
  - rewrite dist_step_skipped by done. rewrite decide_False by done. apply IH.
  - rewrite decide_True by done.
    destruct (dist_step w exclude (Some st) d) as [st1|] eqn:Hstep;
      [|by rewrite fold_dist_step_none].
    destruct (dist_step_processed _ _ _ _ _ Hskip Hstep)
      as (copied & extra & _ & Hres & _ & _).
    intros ->%IH. rewrite Hres, map_app. cbn [map]. by rewrite <- app_assoc.
Qed.

Lemma catalog_record_heads (w : World) (exclude : gset string)
    (out : gmap string string) (dists : list Distribution) (st : Collected) :
  collect_catalog w exclude out dists = Some st →
  map record_head (results st) =
  map dist_head (filter (λ d, skipped exclude d = false) (sorted sort_key dists)).
Proof. unfold collect_catalog. by intros ->%dist_loop_heads. Qed.

(** X17: the catalog loop makes exactly one record for each distribution that
    is not passed over, in the order of the sorted catalog, with its name,
    its version ([UNKNOWN] when it has none) and its inferred label. *)
Theorem one_record_per_processed_distribution (w : World) (exclude : gset string)
    (out : gmap string string) (dists : list Distribution) (st : Collected) :
  collect_catalog w exclude out dists = Some st →
  map record_head (results st) =
  map dist_head (filter (λ d, skipped exclude d = false) (sorted sort_key dists)).
Proof. apply catalog_record_heads. Qed.

Lemma sort_key_processed (exclude : gset string) (d : Distribution) :
  skipped exclude d = false → sort_key d = lower (default "" (dist_name_of d)).
Proof.
  unfold skipped, sort_key, dist_name_of.
  destruct (or_opt (Name (metadata d)) (name d)) as [dname|]; [|done].
  intros [Hne _]%orb_false_iff. cbn [or_opt default]. by rewrite Hne.
Qed.

Lemma StronglySorted_key_map {A B} (k1 : A → string) (k2 : B → string)
    (l1 : list A) (l2 : list B) :
  map k1 l1 = map k2 l2 →
  StronglySorted (key_le k2) l2 → StronglySorted (key_le k1) l1.
Proof.
  revert l2. induction l1 as [|x l1 IH]; intros [|y l2]; try done.
  { constructor. }
  cbn [map]. intros [= Hxy Hmap] [Hs Hy]%StronglySorted_inv.
  constructor; [by eapply IH|].
  apply Forall_forall. intros z Hz.
  apply list_elem_of_In, (in_map k1) in Hz. rewrite Hmap in Hz.
  apply in_map_iff in Hz as (z2 & Hk & Hz2%list_elem_of_In).
  pose proof (proj1 (Forall_forall _ _) Hy z2 Hz2) as Hle.
  unfold key_le in *. by rewrite <- Hk, Hxy.
Qed.

Lemma StronglySorted_filter {A} (R : A → A → Prop) (P : A → Prop)
    `{!∀ x, Decision (P x)} (l : list A) :
  StronglySorted R l → StronglySorted R (filter P l).
Proof.
  induction 1 as [|x l Hs IH Hx]; [constructor|].
  rewrite filter_cons. destruct (decide (P x)); [|done].
  constructor; [done|]. apply Forall_forall.
  intros y [_ Hy]%list_elem_of_filter. by apply (proj1 (Forall_forall _ _) Hx).
Qed.

(** X18: the records of the catalog loop are in the order of their
    distribution names without regard to case. *)
Theorem records_sorted_by_lowercase_name (w : World) (exclude : gset string)
    (out : gmap string string) (dists : list Distribution) (st : Collected) :
  collect_catalog w exclude out dists = Some st →
  StronglySorted (key_le (λ r, lower (dist_name r))) (results st).
Proof.
  intros Hst%catalog_record_heads.
  apply (StronglySorted_key_map _ sort_key _
           (filter (λ d, skipped exclude d = false) (sorted sort_key dists))).
  - apply (f_equal (map (λ h, lower h.1.1))) in Hst.
    rewrite !map_map in Hst. cbn [record_head dist_head fst] in Hst.
    rewrite Hst. apply map_ext_in. intros d Hd%list_elem_of_In.
    apply list_elem_of_filter in Hd as [Hd _]. by rewrite (sort_key_processed exclude).
  - apply StronglySorted_filter, sorted_sorted.
Qed.

Example catalog_two_run : collect_catalog w_all ∅ ∅ [dist_two_licenses] = Some catalog_two.
Proof. by vm_compute. Qed.

Example catalog_baz_run : collect_catalog w_no_files ∅ ∅ [dist_baz] = Some catalog_baz.
Proof. by vm_compute. Qed.

Lemma one_record_per_processed_distribution_witness :
  map record_head (results catalog_two) =
  map dist_head
    (filter (λ d, skipped ∅ d = false) (sorted sort_key [dist_two_licenses])).
Proof.
  apply (one_record_per_processed_distribution w_all ∅ ∅ [dist_two_licenses]).
  by vm_compute.
Defined.

Example catalog_zeta_alpha_run :
  collect_catalog w_no_files ∅ ∅ [dist_named "zeta" None; dist_named "Alpha" None]
  = Some catalog_zeta_alpha.
Proof. by vm_compute. Qed.

Lemma records_sorted_by_lowercase_name_witness :
  StronglySorted (key_le (λ r, lower (dist_name r))) (results catalog_zeta_alpha).
Proof.
  apply (records_sorted_by_lowercase_name w_no_files ∅ ∅
           [dist_named "zeta" None; dist_named "Alpha" None]).
  by vm_compute.
Defined.

Lemma dist_loop_invariant (w : World) (exclude : gset string) (I : Collected → Prop) :
  (∀ st st' d, I st → skipped exclude d = false →
     dist_step w exclude (Some st) d = Some st' → I st') →
  ∀ ds st st', I st → fold_left (dist_step w exclude) ds (Some st) = Some st' → I st'.
Proof.
  intros Hstep. induction ds as [|d ds IH]; intros st st' HI.
  { by intros [= <-]. }
  cbn [fold_left]. destruct (skipped exclude d) eqn:Hskip.
  - rewrite dist_step_skipped by done. by apply IH.
  - destruct (dist_step w exclude (Some st) d) as [st1|] eqn:Hd;
      [|by rewrite fold_dist_step_none].
    apply IH. by eapply Hstep.
Qed.

Lemma catalog_invariant (w : World) (exclude : gset string) (I : Collected → Prop)
    (out : gmap string string) (dists : list Distribution) (st : Collected) :
  (∀ st st' d, I st → skipped exclude d = false →
     dist_step w exclude (Some st) d = Some st' → I st') →
  I {| out_dir := out; results := []; warnings := [] |} →
  collect_catalog w exclude out dists = Some st → I st.
Proof. intros Hstep H0. unfold collect_catalog. by apply dist_loop_invariant. Qed.

(** X19: a record has no copied file exactly when the run warns that no
    license file was found for its distribution: every record without files
    has its warning, and every such warning has its record. *)
Theorem no_license_warning_iff_no_files (w : World) (exclude : gset string)
    (out : gmap string string) (dists : list Distribution) (st : Collected) :
  collect_catalog w exclude out dists = Some st →
  (∀ r, r ∈ results st → copied_files r = [] →
     WarnNoLicenseFile (dist_name r) (dist_version r) ∈ warnings st)
  ∧ (∀ n v, WarnNoLicenseFile n v ∈ warnings st →
       ∃ r, r ∈ results st ∧ dist_name r = n ∧ dist_version r = v
            ∧ copied_files r = []).
Proof.
  apply (catalog_invariant w exclude
    (λ st, (∀ r, r ∈ results st → copied_files r = [] →
              WarnNoLicenseFile (dist_name r) (dist_version r) ∈ warnings st)
           ∧ (∀ n v, WarnNoLicenseFile n v ∈ warnings st →
                ∃ r, r ∈ results st ∧ dist_name r = n ∧ dist_version r = v
                     ∧ copied_files r = []))).
  2:{ split; [by intros r ?%elem_of_nil|by intros n v ?%elem_of_nil]. }
  clear. intros st st' d [Hrec Hwarn] Hskip Hstep.
  destruct (dist_step_processed _ _ _ _ _ Hskip Hstep)
    as (copied & extra & _ & -> & -> & Hextra).
  split.
  - intros r [Hr| ->%list_elem_of_singleton]%elem_of_app.
    + intros He. apply elem_of_app. left. by apply Hrec.
    + cbn [copied_files dist_name dist_version]. intros ->%sorted_nil_iff.
      apply elem_of_app. right. apply elem_of_app. right. by left.
  - intros n v [Hw|[Hw|Hw]%elem_of_app]%elem_of_app.
    + destruct (Hwarn n v Hw) as (r & Hr & ?). exists r. split; [|done].
      apply elem_of_app. by left.
    + apply (proj1 (Forall_forall _ _) Hextra) in Hw as (lf & e & [=]).
    + destruct copied; [|by apply elem_of_nil in Hw].
      apply list_elem_of_singleton in Hw as [= <- <-].
      eexists. split; [apply elem_of_app; right; by left|]. done.
Qed.

Lemma no_license_warning_iff_no_files_witness :
  (∀ r, r ∈ results catalog_baz → copied_files r = [] →
     WarnNoLicenseFile (dist_name r) (dist_version r) ∈ warnings catalog_baz)
  ∧ (∀ n v, WarnNoLicenseFile n v ∈ warnings catalog_baz →
       ∃ r, r ∈ results catalog_baz ∧ dist_name r = n ∧ dist_version r = v
            ∧ copied_files r = []).
Proof.
  apply (no_license_warning_iff_no_files w_no_files ∅ ∅ [dist_baz]). by vm_compute.
Defined.

Lemma name_form_nonempty (prefix fname : string) : name_form prefix fname → fname ≠ "".
Proof.
  intros (base & [->| (i & _ & ->)]) Heq; apply (f_equal String.length) in Heq;
    unfold target_name, candidate in Heq; rewrite !length_app_str in Heq;
    cbn [String.length] in Heq; lia.
Qed.

Lemma try_copy_python_license_cases (w : World) (out out' : gmap string string)
    (py : option copy_result) :
  _try_copy_python_license w out = Some (py, out') →
  match List.find (is_file w) (python_license_candidates w) with
  | None => py = None ∧ out' = out
  | Some c =>
      (∃ n, py = Some (Copied n) ∧ n ≠ "" ∧ out !! n = None ∧ out' = <[n := c]> out)
      ∨ (∃ e, py = Some (Raised e))
  end.
Proof.
  unfold _try_copy_python_license, python_license_candidates.
  destruct (List.find _ _) as [c|]; [|by intros [= <- <-]].
  unfold _copy_with_unique_name.
  destruct (unique_name_spec out (path_name c) "Python") as (n & -> & Hspec).
  cbn [mbind option_bind].
  destruct (copy2 w c n) as [|e written]; cbn [mbind option_bind]; intros [= <- <-].
  - left. exists n. pose proof Hspec as (_ & Hfree & _).
    split_and!; [done| |done..]. eapply name_form_nonempty, unique_name_form, Hspec.
  - right. by exists e.
Qed.

Lemma collect_licenses_returned (w : World) (out out' : gmap string string)
    (exclude : gset string) (dists : list Distribution)
    (rs : list DistLicenseCopy) (ws : list Warning) :
  collect_licenses w out exclude dists = Some (Returned (rs, ws), out') →
  ∃ st, collect_catalog w exclude out dists = Some st
    ∧ match List.find (is_file w) (python_license_candidates w) with
      | None =>
          rs = results st ∧ ws = warnings st ++ [WarnNoPythonLicense]
          ∧ out' = out_dir st
      | Some c =>
          ∃ n, rs = results st ++ [python_entry w n] ∧ ws = warnings st
               ∧ out_dir st !! n = None ∧ out' = <[n := c]> (out_dir st)
               ∧ name_form "Python" n
      end.
Proof.
  unfold collect_licenses. destruct (site_packages w); [|done].
  destruct (collect_catalog w exclude out dists) as [st|]; [|done].
  cbn [mbind option_bind].
  destruct (_try_copy_python_license w (out_dir st)) as [[py out1]|] eqn:Hpy; [|done].
  cbn [mbind option_bind]. exists st. split; [done|].
  pose proof (try_copy_python_license_cases _ _ _ _ Hpy) as Hcases.
  destruct (try_copy_python_license_spec w (out_dir st)) as (py' & out2 & Hpy' & _ & Hform).
  rewrite Hpy in Hpy'. injection Hpy' as <- <-.
  destruct (List.find _ _) as [c|].
  - destruct Hcases as [(n & -> & Hne & Hfree & ->)|(e & ->)]; [|done].
    apply is_empty_false in Hne as Hne'. rewrite Hne' in H.
    injection H as <- <- <-. exists n. split_and!; [done..|].
    by apply (Hform n).
  - destruct Hcases as [-> ->]. by injection H as <- <- <-.
Qed.


(** X20: after the catalog the run looks for the license of the runtime in
    three places below [sys.base_prefix].  If none is a regular file it adds
    one warning and no file; otherwise it copies the first one that is, under
    a free name with the prefix [Python], and adds the runtime's record last,
    whatever the exclude set holds. *)
Theorem runtime_license_entry_or_warning (w : World) (out out' : gmap string string)
    (exclude : gset string) (dists : list Distribution)
    (rs : list DistLicenseCopy) (ws : list Warning) :
  collect_licenses w out exclude dists = Some (Returned (rs, ws), out') →
  ∃ st, collect_catalog w exclude out dists = Some st
    ∧ match List.find (is_file w) (python_license_candidates w) with
      | None =>
          rs = results st ∧ ws = warnings st ++ [WarnNoPythonLicense]
          ∧ out' = out_dir st
      | Some c =>
          ∃ n, rs = results st ++ [python_entry w n] ∧ ws = warnings st
               ∧ out_dir st !! n = None ∧ out' = <[n := c]> (out_dir st)
               ∧ name_form "Python" n
      end.
Proof. apply collect_licenses_returned. Qed.

Lemma runtime_license_entry_or_warning_witness :
  ∃ st, collect_catalog w_all ∅ ∅ [dist_two_licenses] = Some st
    ∧ match List.find (is_file w_all) (python_license_candidates w_all) with
      | None =>
          run_two_results = results st ∧ [] = warnings st ++ [WarnNoPythonLicense]
          ∧ run_two_out = out_dir st
      | Some c =>
          ∃ n, run_two_results = results st ++ [python_entry w_all n]
               ∧ [] = warnings st
               ∧ out_dir st !! n = None ∧ run_two_out = <[n := c]> (out_dir st)
               ∧ name_form "Python" n
      end.
Proof.
  apply (runtime_license_entry_or_warning w_all ∅ run_two_out ∅ [dist_two_licenses]).
  by vm_compute.
Defined.

(** X21: the copied files of every record of a run are listed in the order
    of strings. *)
Theorem copied_files_sorted (w : World) (out out' : gmap string string)
    (exclude : gset string) (dists : list Distribution)
    (rs : list DistLicenseCopy) (ws : list Warning) :
  collect_licenses w out exclude dists = Some (Returned (rs, ws), out') →
  ∀ r, r ∈ rs → StronglySorted (key_le id) (copied_files r).
Proof.
  intros Hrun.
  destruct (collect_licenses_returned _ _ _ _ _ _ _ Hrun) as (st & Hst & Hpy).
  assert (∀ r, r ∈ results st → StronglySorted (key_le id) (copied_files r)) as Hcat.
  { revert Hst. apply (catalog_invariant w exclude
      (λ st, ∀ r, r ∈ results st → StronglySorted (key_le id) (copied_files r))).
    2:{ by intros r ?%elem_of_nil. }
    clear. intros st st' d Hrec Hskip Hstep.
    destruct (dist_step_processed _ _ _ _ _ Hskip Hstep)
      as (copied & extra & _ & -> & _ & _).
    intros r [Hr| ->%list_elem_of_singleton]%elem_of_app; [by apply Hrec|].
    apply sorted_sorted. }
  destruct (List.find _ _) as [c|].
  - destruct Hpy as (n & -> & _).
    intros r [Hr| ->%list_elem_of_singleton]%elem_of_app; [by apply Hcat|].
    cbn [python_entry copied_files]. by repeat constructor.
  - by destruct Hpy as (-> & _).
Qed.

Lemma copied_files_sorted_witness :
  StronglySorted (key_le id) ["foo-LICENSE"; "foo-LICENSE_2"].
Proof.
  assert (collect_licenses w_all ∅ ∅ [dist_two_licenses]
          = Some (Returned (run_two_results, []), run_two_out)) as Hrun
    by (by vm_compute).
  apply (copied_files_sorted w_all ∅ run_two_out ∅ [dist_two_licenses]
           run_two_results [] Hrun
           {| dist_name := "foo"; dist_version := "1.0";
              inferred_license := "UNKNOWN";
              copied_files := ["foo-LICENSE"; "foo-LICENSE_2"] |}).
  apply elem_of_cons. by left.
Defined.

(** X22: an argument of [--exclude] covers every distribution whose name has
    the same normalized lowercase form, and so every distribution of an ASCII
    name that differs from an ASCII argument in letter case only; such a
    distribution leaves no trace in the run. *)
Theorem exclude_argument_covers_name (w : World) (args_exclude : list string)
    (a dname : string) (d : Distribution) :
  a ∈ args_exclude →
  dist_name_of d = Some dname →
  (all_chars is_ascii a = true ∧ all_chars is_ascii dname = true
   ∧ lower dname = lower a)
  ∨ lower (_norm_name dname) = lower (_norm_name a) →
  is_excluded (main_exclude args_exclude) dname = true
  ∧ leaves_no_trace w (main_exclude args_exclude) d.
Proof.
  intros Ha Hname Hsame.
  assert (lower (_norm_name dname) = lower (_norm_name a)) as Hnorm.
  { destruct Hsame as [(_ & _ & Hlow)|Hnorm]; [|done].
    by rewrite <- !norm_name_lower, Hlow. }
  assert (is_excluded (main_exclude args_exclude) dname = true) as Hex.
  { apply is_excluded_true. left. rewrite Hnorm. unfold main_exclude.
    apply elem_of_list_to_set, list_elem_of_In, in_map_iff.
    exists a. split; [done|by apply list_elem_of_In]. }
  split; [done|]. apply skipped_leaves_no_trace.
  unfold skipped. rewrite Hname, Hex. apply orb_true_r.
Qed.

Lemma exclude_argument_covers_name_witness :
  is_excluded (main_exclude ["PIP"; "my pkg"]) "pip" = true
  ∧ leaves_no_trace w_all (main_exclude ["PIP"; "my pkg"]) dist_pip.
Proof.
  apply (exclude_argument_covers_name w_all ["PIP"; "my pkg"] "PIP" "pip" dist_pip).
  - apply elem_of_cons. by left.
  - reflexivity.
  - left. by split_and!.
Defined.

Lemma copy_with_unique_name_clean (w : World) (src : string)
    (out out' : gmap string string) (prefix : string) (r : copy_result) :
  (∀ s dst e, copy2 w s dst ≠ CopyError e true) →
  _copy_with_unique_name w src out prefix = Some (r, out') →
  (∃ n, r = Copied n ∧ out' = <[n := src]> out) ∨ (∃ e, r = Raised e ∧ out' = out).
Proof.
  intros Hclean. unfold _copy_with_unique_name.
  destruct (unique_name out (path_name src) prefix) as [n|]; [|done].
  cbn [mbind option_bind].
  destruct (copy2 w src n) as [|e written] eqn:Hcopy; intros [= <- <-].
  - left. by exists n.
  - right. exists e. split; [done|].
    destruct written; [|done]. by destruct (Hclean src n e).
Qed.

Lemma copy_loop_dom (w : World) (dname dver prefix : string) (lfs : list string)
    (D : gset string) :
  (∀ s dst e, copy2 w s dst ≠ CopyError e true) →
  ∀ (out out' : gmap string string) (copied copied' : list string)
    (warns warns' : list Warning),
    fold_left (copy_step w dname dver prefix) lfs (Some (out, copied, warns))
      = Some (out', copied', warns') →
    dom out = D ∪ list_to_set copied →
    dom out' = D ∪ list_to_set copied'.
Proof.
  intros Hclean.
  induction lfs as [|lf lfs IH]; intros out out' copied copied' warns warns'.
  { by intros [= <- <- <-]. }
  cbn [fold_left]. unfold copy_step at 2. cbn [mbind option_bind].
  destruct (_copy_with_unique_name w lf out prefix) as [[r out1]|] eqn:Hcopy.
  2:{ cbn [mbind option_bind]. clear. induction lfs as [|x lfs IHl]; [done|]. exact IHl. }
  cbn [mbind option_bind].
  destruct (copy_with_unique_name_clean _ _ _ _ _ _ Hclean Hcopy)
    as [(n & -> & ->)|(e & -> & ->)].
  - intros Hfold Hdom. apply (IH _ _ _ _ _ _ Hfold).
    rewrite dom_insert_L, Hdom, list_to_set_app_L, list_to_set_singleton_L.
    apply set_eq. intros x. rewrite !elem_of_union. tauto.
  - intros Hfold Hdom. by apply (IH _ _ _ _ _ _ Hfold).
Qed.

Lemma list_to_set_sorted (l : list string) :
  list_to_set (sorted id l) =@{gset string} list_to_set l.
Proof.
  apply set_eq. intros x. rewrite !elem_of_list_to_set.
  by rewrite (sorted_perm id l).
Qed.

(** X23: when no failed copy leaves a file behind, a run that returns has
    added to the output directory the copied files its records list and no
    other file. *)
Theorem run_adds_exactly_the_copied_files (w : World) (out out' : gmap string string)
    (exclude : gset string) (dists : list Distribution)
    (rs : list DistLicenseCopy) (ws : list Warning) :
  (∀ s dst e, copy2 w s dst ≠ CopyError e true) →
  collect_licenses w out exclude dists = Some (Returned (rs, ws), out') →
  dom out' = dom out ∪ list_to_set (all_copied rs).
Proof.
  intros Hclean Hrun.
  destruct (collect_licenses_returned _ _ _ _ _ _ _ Hrun) as (st & Hst & Hpy).
  assert (dom (out_dir st) = dom out ∪ list_to_set (all_copied (results st))) as Hcat.
  { revert Hst. apply (catalog_invariant w exclude
      (λ st, dom (out_dir st) = dom out ∪ list_to_set (all_copied (results st)))).
    2:{ cbn. apply set_eq. intros x. rewrite elem_of_union, elem_of_empty. tauto. }
    intros st0 st1 d Hdom Hskip Hstep.
    destruct (dist_step_processed _ _ _ _ _ Hskip Hstep)
      as (copied & extra & Hfold & -> & _ & _).
    rewrite all_copied_snoc. cbn [copied_files].
    rewrite list_to_set_app_L, list_to_set_sorted.
    rewrite (copy_loop_dom _ _ _ _ _
               (dom out ∪ list_to_set (all_copied (results st0)))
               Hclean _ _ _ _ _ _ Hfold).
    - apply set_eq. intros x. rewrite !elem_of_union. tauto.
    - rewrite Hdom, list_to_set_nil. by rewrite (right_id_L ∅ (∪)). }
  destruct (List.find _ _) as [c|].
  - destruct Hpy as (n & -> & _ & _ & -> & _).
    rewrite dom_insert_L, Hcat, all_copied_snoc. cbn [python_entry copied_files].
    rewrite list_to_set_app_L, list_to_set_singleton_L.
    apply set_eq. intros x. rewrite !elem_of_union. tauto.
  - by destruct Hpy as (-> & _ & ->).
Qed.

Lemma run_adds_exactly_the_copied_files_witness :
  dom run_two_out = dom (∅ : gmap string string) ∪ list_to_set (all_copied run_two_results).
Proof.
  apply (run_adds_exactly_the_copied_files w_all ∅ run_two_out ∅ [dist_two_licenses] _ []).
  - intros s dst e. discriminate.
  - by vm_compute.
Defined.

(** ** Notice Writer *)

Lemma notice_step_block (lines : list string) (c : DistLicenseCopy) :
  notice_step lines c = lines ++ notice_block c.
Proof.
  unfold notice_step, notice_block. destruct (copied_files c) as [|f fs].
  - by rewrite <- !app_assoc.
  - rewrite fold_left_append_map. rewrite <- !app_assoc. done.
Qed.

Lemma fold_notice_step (cs : list DistLicenseCopy) (lines : list string) :
  fold_left notice_step cs lines = lines ++ concat (map notice_block cs).
Proof.
  revert lines. induction cs as [|c cs IH]; intros lines; cbn [fold_left map concat].
  { by rewrite app_nil_r. }
  by rewrite IH, notice_step_block, <- app_assoc.
Qed.

Lemma notices_lines_parts (now : string) (copies : list DistLicenseCopy)
    (warns : list string) :
  notices_lines now copies warns =
  notices_header now
  ++ concat (map notice_block (sorted (λ x, lower (dist_name x)) copies))
  ++ match warns with
     | [] => []
     | _ => ["WARNINGS"; ""] ++ warns ++ [""]
     end.
Proof.
  unfold notices_lines. rewrite fold_notice_step. destruct warns as [|wn warns].
  { by rewrite app_nil_r. }
  rewrite fold_left_append_map, map_id. by rewrite <- !app_assoc.
Qed.

(** X24: the notices hold, for every record given, its block of lines in one
    piece: the line of name and version, the line of the label, the list of
    its files under [licenses/] or the line [(NOT FOUND)], and an empty
    line. *)
Theorem notices_hold_every_record (now : string) (copies : list DistLicenseCopy)
    (warns : list string) (c : DistLicenseCopy) :
  c ∈ copies →
  ∃ before after,
    notices_lines now copies warns = before ++ notice_block c ++ after.
Proof.
  intros Hc. rewrite notices_lines_parts.
  assert (c ∈ sorted (λ x, lower (dist_name x)) copies) as Hs.
  { by rewrite sorted_perm. }
  apply list_elem_of_split in Hs as (l1 & l2 & ->).
  rewrite map_app, concat_app. cbn [map concat].
  eexists (notices_header now ++ concat (map notice_block l1)), _.
  rewrite <- !app_assoc. reflexivity.
Qed.

Lemma notices_hold_every_record_witness :
  ∃ before after,
    notices_lines "2026-01-01 00:00:00" run_two_results []
    = before ++ notice_block (python_entry w_all "Python-LICENSE.txt") ++ after.
Proof.
  apply (notices_hold_every_record _ run_two_results).
  apply elem_of_cons. right. apply elem_of_cons. by left.
Defined.

(** X25: the warnings never change the lines above them: with warnings the
    notices are the notices without them followed by the heading [WARNINGS],
    an empty line, the warnings as they are and in their order, and an empty
    line; without warnings there is no such section. *)
Theorem notices_end_with_warnings (now : string) (copies : list DistLicenseCopy)
    (warns : list string) :
  warns ≠ [] →
  notices_lines now copies warns =
  notices_lines now copies [] ++ ["WARNINGS"; ""] ++ warns ++ [""].
Proof.
  intros Hne. rewrite !notices_lines_parts. destruct warns; [done|].
  by rewrite app_nil_r, <- !app_assoc.
Qed.

Lemma notices_end_with_warnings_witness :
  notices_lines "2026-01-01 00:00:00" (results catalog_baz)
    (map render_warning (warnings catalog_baz))
  = notices_lines "2026-01-01 00:00:00" (results catalog_baz) []
    ++ ["WARNINGS"; ""] ++ map render_warning (warnings catalog_baz) ++ [""].
Proof. by apply notices_end_with_warnings. Defined.

(** ** Install root *)

Lemma find_none_iff {A} (f : A → bool) (l : list A) :
  List.find f l = None ↔ ∀ x, x ∈ l → f x = false.
Proof.
  induction l as [|y l IH]; cbn [List.find].
  { split; [by intros _ x ?%elem_of_nil|done]. }
  destruct (f y) eqn:Hy.
  - split; [done|]. intros H. rewrite H in Hy; [done|by left].
  - rewrite IH. split.
    + intros H x [->|Hx]%elem_of_cons; [done|by apply H].
    + intros H x Hx. apply H. by right.
Qed.

(** X26: [_site_packages_dir] returns only a directory that exists, and it
    gives up exactly when [<prefix>/Lib/site-packages] is no directory and
    either [<prefix>/lib] is none or no [python*/site-packages] below it is. *)
Theorem site_packages_dir_exists (w : World) (py : Interpreter) :
  (∀ p, _site_packages_dir w py = Some p → is_dir w p = true)
  ∧ (_site_packages_dir w py = None ↔
     is_dir w (path_join (path_join (sys_prefix py) "Lib") "site-packages") = false
     ∧ (is_dir w (path_join (sys_prefix py) "lib") = false
        ∨ ∀ c, c ∈ glob_python_site_packages py → is_dir w c = false)).
Proof.
  unfold _site_packages_dir.
  destruct (is_dir w (path_join (path_join (sys_prefix py) "Lib") "site-packages"))
    eqn:Hwin.
  { split; [by intros p [= <-]|]. split; [done|by intros [? _]]. }
  destruct (is_dir w (path_join (sys_prefix py) "lib")) eqn:Hlib.
  - split.
    + intros p Hp. by apply find_some in Hp as [_ Hp].
    + rewrite find_none_iff. split; [by intros H; split; [|right]|].
      by intros [_ [?|H]].
  - split; [done|]. split; [by intros _; split; [|left]|done].
Qed.

Lemma site_packages_dir_exists_witness :
  is_dir w_unix "/venv/lib/python3.11/site-packages" = true.
Proof.
  apply (proj1 (site_packages_dir_exists w_unix py_unix)). reflexivity.
Defined.

Lemma insert_by_len_perm (x : string) (l : list string) : insert_by_len x l ≡ₚ x :: l.
Proof.
  induction l as [|y l IH]; cbn [insert_by_len]; [done|].
  destruct (_ <? _)%nat; [|done]. rewrite IH. apply Permutation_swap.
Qed.

Lemma sorted_by_len_perm (l : list string) : sorted_by_len l ≡ₚ l.
Proof.
  induction l as [|x l IH]; cbn [sorted_by_len]; [done|].
  by rewrite insert_by_len_perm, IH.
Qed.

Lemma sorted_by_len_head (l : list string) (n : string) (rest : list string) :
  sorted_by_len l = n :: rest →
  n ∈ l ∧ ∀ m, m ∈ l → (String.length n ≤ String.length m)%nat.
Proof.
  revert n rest. induction l as [|x l IH]; intros n rest; [done|].
  cbn [sorted_by_len]. destruct (sorted_by_len l) as [|y ys] eqn:Hs.
  - assert (l = []) as ->.
    { apply Permutation_nil_r. rewrite <- Hs. symmetry. apply sorted_by_len_perm. }
    intros [= <- <-]. split; [by left|].
    by intros m ->%list_elem_of_singleton.
  - destruct (IH y ys eq_refl) as [Hy Hmin]. cbn [insert_by_len].
    destruct (String.length y <? String.length x)%nat eqn:Hlt.
    + apply Nat.ltb_lt in Hlt. intros [= <- <-]. split; [by right|].
      intros m [->|Hm]%elem_of_cons; [lia|by apply Hmin].
    + apply Nat.ltb_ge in Hlt. intros [= <- <-]. split; [by left|].
      intros m [->|Hm]%elem_of_cons; [lia|].
      specialize (Hmin m Hm). lia.
Qed.

Lemma loose_candidates_filter (w : World) (root : InstallRoot) (dname dver : string) :
  loose_candidates w root dname dver =
  filter (λ n, is_dir w (path_join (root_path root) n)
               && (contains (lower (_norm_name dname)) (lower n)
                   && contains (lower dver) (lower n)) = true)
    (glob_dist_info root).
Proof.
  unfold loose_candidates.
  rewrite (fold_left_ext_str _
             (λ acc n, if is_dir w (path_join (root_path root) n)
                          && (contains (lower (_norm_name dname)) (lower n)
                              && contains (lower dver) (lower n))
                       then acc ++ [id n] else acc)).
  - by rewrite fold_left_append_if, map_id.
  - intros acc n. by destruct (is_dir w _).
Qed.


(** * The copies of a run and the files they come from *)

Lemma copy_loop_outcomes (w : World) (dname dver prefix : string) (lfs : list string) :
  ∀ (out out' : gmap string string) (copied copied' : list string)
    (warns warns' : list Warning),
    fold_left (copy_step w dname dver prefix) lfs (Some (out, copied, warns))
      = Some (out', copied', warns') →
    ∃ os : list file_outcome,
      copies_in_turn w prefix out lfs os out'
      ∧ copied' = copied ++ copied_names os
      ∧ warns' = warns ++ failure_warnings dname dver lfs os.
Proof.
  induction lfs as [|lf lfs IH]; intros out out' copied copied' warns warns'.
  { intros [= <- <- <-]. exists []. by rewrite !app_nil_r. }
  cbn [fold_left]. unfold copy_step at 2, _copy_with_unique_name.
  cbn [mbind option_bind].
  destruct (unique_name_spec out (path_name lf) prefix) as (n & -> & Hspec).
  cbn [mbind option_bind].
  destruct (copy2 w lf n) as [|e written] eqn:Hcopy; cbn [mbind option_bind].
  - intros (os & Hturn & -> & ->)%IH. exists (CopiedAs n :: os). split_and!.
    + cbn [copies_in_turn]. exists n. by rewrite Hcopy.
    + by rewrite <- app_assoc.
    + done.
  - intros (os & Hturn & -> & ->)%IH. exists (FailedWith e :: os). split_and!.
    + cbn [copies_in_turn]. exists n. split; [done|]. by exists written.
    + done.
    + by rewrite <- app_assoc.
Qed.

Lemma copies_in_turn_length (w : World) (prefix : string) (lfs : list string) :
  ∀ (os : list file_outcome) (out out' : gmap string string),
    copies_in_turn w prefix out lfs os out' → length os = length lfs.
Proof.
  induction lfs as [|lf lfs IH]; intros [|o os] out out'; cbn [copies_in_turn];
    try done.
  intros (n & _ & Ho). cbn [length]. f_equal.
  destruct o as [m|e].
  - destruct Ho as (_ & _ & Ho). by eapply IH.
  - destruct Ho as (written & _ & Ho). by eapply IH.
Qed.






Example numbered_inside_dotted_prefix :
  unique_name {["zope.interface-LICENSE" := "/sp/zope/interface/LICENSE"]}
    "LICENSE" (_norm_name "zope.interface")
  = Some "zope_2.interface-LICENSE".
Proof. by vm_compute. Qed.




(** * The Locator and the manifest it cannot read *)

Example locate_twice_listed :
  locate w_all handle_twice_listed None
  = Returned ["/sp/foo/LICENSE"; "/sp/foo/COPYING"].
Proof. by vm_compute. Qed.




(** * The exclude set and the letter case of its elements *)

(** C9, as stated, fails: the collector looks the normalized name up in
    lowercase only, so a distribution [Foo] is recorded although its
    normalized name [Foo] is in the exclude set. *)
Lemma normalized_name_in_exclude_not_skipped :
  ¬ (∀ (w : World) (exclude : gset string) (d : Distribution) (dname : string),
       dist_name_of d = Some dname →
       _norm_name dname ∈ exclude ∨ lower dname ∈ exclude →
       leaves_no_trace w exclude d).
Proof.
  intros H.
  destruct (H w_no_files {["Foo"]} (dist_named "Foo" None) "Foo") as [Hstep _].
  - reflexivity.
  - left. apply elem_of_singleton. reflexivity.
  - specialize (Hstep (Some {| out_dir := ∅; results := []; warnings := [] |})).
    vm_compute in Hstep. by injection Hstep.
Qed.

(** ** The license files of one distribution, copied or reported *)

Lemma copy_loop_total (w : World) (dname dver prefix : string) (lfs : list string) :
  ∀ (out : gmap string string) (copied : list string) (warns : list Warning),
    is_Some (fold_left (copy_step w dname dver prefix) lfs
               (Some (out, copied, warns))).
Proof.
  induction lfs as [|lf lfs IH]; intros out copied warns; [done|].
  cbn [fold_left]. unfold copy_step at 2, _copy_with_unique_name.
  cbn [mbind option_bind].
  destruct (unique_name_spec out (path_name lf) prefix) as (n & -> & _).
  cbn [mbind option_bind].
  destruct (copy2 w lf n) as [|e written]; cbn [mbind option_bind]; apply IH.
Qed.

(** X16: the loop over the license files of a distribution always ends, and
    it handles every file in its turn: the file is given a name that is free
    in the output directory and is either copied under it, and the name joins
    the copied names, or reported by one copy-failed warning that holds the
    file and the error.  The copied names and the warnings of the loop are
    exactly these, in the order of the files, so a failed copy does not stop
    the files after it. *)
Theorem every_license_file_copied_or_reported (w : World)
    (dname dver prefix : string) (lfs : list string)
    (out : gmap string string) (warns : list Warning) :
  ∃ (out' : gmap string string) (os : list file_outcome),
    fold_left (copy_step w dname dver prefix) lfs (Some (out, [], warns))
      = Some (out', copied_names os, warns ++ failure_warnings dname dver lfs os)
    ∧ length os = length lfs
    ∧ copies_in_turn w prefix out lfs os out'.
Proof.
  destruct (copy_loop_total w dname dver prefix lfs out [] warns)
    as [[[out' copied'] warns'] Hrun].
  destruct (copy_loop_outcomes _ _ _ _ _ _ _ _ _ _ _ Hrun)
    as (os & Hturn & -> & ->).
  exists out', os. split_and!; [done| |done].
  by eapply copies_in_turn_length.
Qed.

Example copy_loop_one_denied :
  fold_left (copy_step w_one_denied "foo" "1.0" "foo")
    ["/sp/foo/LICENSE"; "/sp/foo/COPYING"] (Some (∅, [], []))
  = Some (<["foo-COPYING" := "/sp/foo/COPYING"]> ∅, ["foo-COPYING"],
          [WarnCopyFailed "foo" "1.0" "/sp/foo/LICENSE" "denied"])
  ∧ copied_names [FailedWith "denied"; CopiedAs "foo-COPYING"] = ["foo-COPYING"]
  ∧ failure_warnings "foo" "1.0" ["/sp/foo/LICENSE"; "/sp/foo/COPYING"]
      [FailedWith "denied"; CopiedAs "foo-COPYING"]
    = [WarnCopyFailed "foo" "1.0" "/sp/foo/LICENSE" "denied"].
Proof. by vm_compute. Qed.

(** ** Locator: the metadata directory that is chosen *)

Lemma find_first {A} (f : A → bool) (before after : list A) (x : A) :
  f x = true → (∀ m, m ∈ before → f m = false) →
  List.find f (before ++ x :: after) = Some x.
Proof.
  intros Hx. induction before as [|y before IH]; intros Hb; cbn [app List.find].
  - by rewrite Hx.
  - rewrite (Hb y) by (by left). apply IH. intros m Hm. apply Hb. by right.
Qed.

Lemma sorted_by_len_first_shortest (before after : list string) (n : string) :
  (∀ m, m ∈ before → (String.length n < String.length m)%nat) →
  (∀ m, m ∈ after → (String.length n ≤ String.length m)%nat) →
  ∃ rest, sorted_by_len (before ++ n :: after) = n :: rest.
Proof.
  intros Hb Ha. induction before as [|x before IH]; cbn [app sorted_by_len].
  - destruct (sorted_by_len after) as [|y ys] eqn:Hs; [by exists []|].
    assert (y ∈ after) as Hy.
    { rewrite <- (sorted_by_len_perm after), Hs. by left. }
    cbn [insert_by_len]. apply Ha in Hy.
    destruct (Nat.ltb_spec (String.length y) (String.length n)); [lia|].
    by eexists.
  - destruct IH as [rest ->]; [intros m Hm; apply Hb; by right|].
    cbn [insert_by_len].
    assert (String.length n < String.length x)%nat as Hx by (apply Hb; by left).
    destruct (Nat.ltb_spec (String.length n) (String.length x)); [|lia].
    by eexists.
Qed.

(** X27: which metadata directory [_find_dist_info_dir] returns.  It is the
    first entry of the glob that is a directory and that the pattern matches.
    When the glob has no such entry, the candidates are the entries that are
    directories and whose lowercase name holds the lowercase normalized name
    and the lowercase version, in the order of the glob, and the function
    returns the first candidate of the least name length; without any
    candidate it returns [None]. *)
Theorem find_dist_info_dir_cases (w : World) (root : InstallRoot)
    (dist : Distribution) (dname : string) :
  dist_name_of dist = Some dname →
  let dver := dist_version_of dist in
  let join := path_join (root_path root) in
  (∀ (before after : list string) (n : string),
      glob_dist_info root = before ++ n :: after →
      exact_match w root dname dver n = true →
      (∀ m, m ∈ before → exact_match w root dname dver m = false) →
      _find_dist_info_dir w root dist = Returned (Some (join n)))
  ∧ loose_candidates w root dname dver
    = filter (λ n, is_dir w (join n)
                   && (contains (lower (_norm_name dname)) (lower n)
                       && contains (lower dver) (lower n)) = true)
        (glob_dist_info root)
  ∧ ((∀ m, m ∈ glob_dist_info root → exact_match w root dname dver m = false) →
     (∀ (before after : list string) (n : string),
         loose_candidates w root dname dver = before ++ n :: after →
         (∀ m, m ∈ before → (String.length n < String.length m)%nat) →
         (∀ m, m ∈ after → (String.length n ≤ String.length m)%nat) →
         _find_dist_info_dir w root dist = Returned (Some (join n)))
     ∧ (loose_candidates w root dname dver = [] →
        _find_dist_info_dir w root dist = Returned None)).
Proof.
  unfold dist_name_of, dist_version_of, _find_dist_info_dir, exact_match.
  intros ->. cbn zeta. split_and!.
  - intros before after n -> Hn Hbefore.
    by rewrite (find_first _ before after n Hn Hbefore).
  - apply loose_candidates_filter.
  - intros Hnone%find_none_iff. rewrite Hnone. split.
    + intros before after n -> Hb Ha.
      by destruct (sorted_by_len_first_shortest before after n Hb Ha) as [rest ->].
    + by intros ->.
Qed.

Lemma find_dist_info_dir_cases_witness :
  _find_dist_info_dir w_dist_infos root_exact (dist_named "foo" None)
    = Returned (Some "/sp/foo-1.0.dist-info")
  ∧ loose_candidates w_dist_infos root_loose "foo" "1.0"
    = ["foo_extras-1.0.post1.dist-info"; "foo-1.0.post1.dist-info";
       "foo-1.0.post2.dist-info"]
  ∧ _find_dist_info_dir w_dist_infos root_loose (dist_named "foo" None)
    = Returned (Some "/sp/foo-1.0.post1.dist-info").
Proof.
  split_and!.
  - destruct (find_dist_info_dir_cases w_dist_infos root_exact
                (dist_named "foo" None) "foo" eq_refl) as (Hexact & _ & _).
    apply (Hexact ["foo_extras-1.0.dist-info"; "Foo-1.0.dist-info"]
             ["FOO-1.0.dist-info"] "foo-1.0.dist-info"); [reflexivity..|].
    intros m [->|[->|Hm%elem_of_nil]%elem_of_cons]%elem_of_cons;
      [reflexivity|reflexivity|done].
  - reflexivity.
  - destruct (find_dist_info_dir_cases w_dist_infos root_loose
                (dist_named "foo" None) "foo" eq_refl) as (_ & _ & Hloose).
    destruct Hloose as [Hshortest _].
    { intros m
        [->|[->|[->|[->|Hm%elem_of_nil]%elem_of_cons]%elem_of_cons]%elem_of_cons]%elem_of_cons;
        [reflexivity..|done]. }
    apply (Hshortest ["foo_extras-1.0.post1.dist-info"]
             ["foo-1.0.post2.dist-info"] "foo-1.0.post1.dist-info");
      [reflexivity| |].
    + intros m [->|Hm%elem_of_nil]%elem_of_cons; [vm_compute; lia|done].
    + intros m [->|Hm%elem_of_nil]%elem_of_cons; [vm_compute; lia|done].
Defined.
